(** * FileMate: the node tree store and the packer

    A shallow embedding of [filemate/file_system_node_tree.py] and
    [filemate/packer.py].  The mirror tree is a tree of [bigtree] nodes,
    held here as a rose tree whose nodes are addressed by their position
    (the child indices from the root); a mutation of the Python object
    graph is a function from the old tree to the new one.  Exceptions are
    values of [Result]; the packer threads its two stores through a state
    monad that keeps the state reached when an exception is raised.  What
    the entities and the cache do while a store is built is a parameter of
    the build, a [World]. *)

From Stdlib Require Import ZArith QArith String Ascii.
From stdpp Require Import base option list strings gmap.

Local Open Scope string_scope.
Local Open Scope list_scope.

(** ** Exceptions *)

Inductive Exception :=
| ValueError
| FileNotFoundError
| AttributeError
| TreeError
| JSONDecodeError
| OSError.

Inductive Result (A : Type) :=
| Ok (a : A)
| Raise (e : Exception).
Arguments Ok {A} a.
Arguments Raise {A} e.

Definition is_ok {A} (r : Result A) : bool :=
  match r with Ok _ => true | Raise _ => false end.

(** ** pathlib *)

Module PathLib.

(** A [pathlib.Path] on a POSIX system: whether it starts at the
    filesystem root, and its segments. *)
Record Path := MkPath { anchored : bool; segments : list string }.

(** [Path.name]: the last segment, the empty string when there is none. *)
Definition name (p : Path) : string := List.last (segments p) "".

(** [Path.parent]. *)
Definition parent (p : Path) : Path :=
  MkPath (anchored p) (removelast (segments p)).

(** The segments left once "." and ".." are taken out; [stack] holds the
    segments kept so far, innermost first. *)
Fixpoint normalise (stack : list string) (segs : list string) : list string :=
  match segs with
  | [] => rev stack
  | s :: rest =>
      if String.eqb s "." then normalise stack rest
      else if String.eqb s "" then normalise stack rest
      else if String.eqb s ".." then normalise (tail stack) rest
      else normalise (s :: stack) rest
  end.

(** [Path.resolve()]: the path made absolute (a relative path is taken
    from the working directory [cwd]) and normalised.  Symbolic links
    are not modelled. *)
Definition resolve (cwd : list string) (p : Path) : Path :=
  MkPath true
    (if anchored p then normalise [] (segments p)
     else normalise (rev cwd) (segments p)).

(** [Path.parts]: the anchor "/" comes first when the path is absolute. *)
Definition parts (p : Path) : list string :=
  if anchored p then "/" :: segments p else segments p.

End PathLib.

Abbreviation Path := PathLib.Path.

(** ** The filesystem entities *)

#[local] Unset Elimination Schemes.

Inductive Kind := KFile | KDirectory.

(** Modelled from the spec: [filemate/file_system_node.py] and
    [filemate/directory.py] are not among the sources.  An entity has a
    path, a size and a kind; a directory enumerates its entries in order. *)
Inductive FileSystemNode :=
| File (path : Path) (size : option Z)
| Directory (path : Path) (size : option Z) (entries : list FileSystemNode).

Definition fs_path (e : FileSystemNode) : Path :=
  match e with File p _ => p | Directory p _ _ => p end.

Definition fs_name (e : FileSystemNode) : string := PathLib.name (fs_path e).

Definition get_size (e : FileSystemNode) : option Z :=
  match e with File _ s => s | Directory _ s _ => s end.

Definition get_type (e : FileSystemNode) : Kind :=
  match e with File _ _ => KFile | Directory _ _ _ => KDirectory end.

(** [node.is_instance(Directory)] *)
Definition is_directory (e : FileSystemNode) : bool :=
  match e with File _ _ => false | Directory _ _ _ => true end.

Definition fs_entries (e : FileSystemNode) : list FileSystemNode :=
  match e with File _ _ => [] | Directory _ _ es => es end.

(** Modelled from the spec: an entry is hidden when its name starts with
    a dot. *)
Definition is_hidden (e : FileSystemNode) : bool :=
  match fs_name e with
  | String c _ => Ascii.eqb c "."%char
  | EmptyString => false
  end.

(** [node.iter(recursive=False, hidden=False)] *)
Definition iter (e : FileSystemNode) : list FileSystemNode :=
  List.filter (fun c => negb (is_hidden c)) (fs_entries e).

(** ** bigtree nodes *)

(** A [bigtree.Node]: its name, the attributes [size] and [type] given at
    creation (absent on a node that was imported), and its children in
    order.  The parent link is the position of the node in the tree. *)
Inductive TreeNode :=
| Node (node_name : string) (node_size : option Z) (node_type : option Kind)
       (children : list TreeNode).

Definition node_name (t : TreeNode) : string :=
  match t with Node n _ _ _ => n end.
Definition node_size (t : TreeNode) : option Z :=
  match t with Node _ s _ _ => s end.
Definition node_type (t : TreeNode) : option Kind :=
  match t with Node _ _ k _ => k end.
Definition children (t : TreeNode) : list TreeNode :=
  match t with Node _ _ _ cs => cs end.

Definition with_children (t : TreeNode) (cs : list TreeNode) : TreeNode :=
  Node (node_name t) (node_size t) (node_type t) cs.

#[local] Set Elimination Schemes.

(** A node of a tree is named by the child indices that lead to it from
    the root; the root is at [[]]. *)
Definition position := list nat.

Fixpoint node_at (t : TreeNode) (pos : position) : option TreeNode :=
  match pos with
  | [] => Some t
  | i :: rest =>
      match children t !! i with
      | Some c => node_at c rest
      | None => None
      end
  end.

(** The parent link of the node at [pos]: [None] for the root. *)
Definition parent_of (pos : position) : option position :=
  match pos with
  | [] => None
  | _ => Some (removelast pos)
  end.

(** [next((child for child in children if child.name == part), None)],
    with the index of that child. *)
Fixpoint first_named (part : string) (cs : list TreeNode)
  : option (nat * TreeNode) :=
  match cs with
  | [] => None
  | c :: rest =>
      if String.eqb (node_name c) part then Some (0, c)
      else
        match first_named part rest with
        | Some (i, d) => Some (S i, d)
        | None => None
        end
  end.

(** [update_at t pos f]: the tree [t] with the node at [pos] replaced by
    its image under [f]; a position outside the tree changes nothing. *)
Fixpoint update_at (t : TreeNode) (pos : position) (f : TreeNode -> TreeNode)
  : TreeNode :=
  match pos with
  | [] => f t
  | i :: rest =>
      match children t !! i with
      | Some c => with_children t (<[i := update_at c rest f]> (children t))
      | None => t
      end
  end.

(** [TreeNode(name, parent=parent, ...)] for a parent at [pos]: the new
    node goes last among the parent's children.  [bigtree.Node] refuses a
    second child of the same name with a [TreeError]. *)
Definition attach (root : TreeNode) (pos : position) (new : TreeNode)
  : Result TreeNode :=
  match node_at root pos with
  | None => Raise AttributeError
  | Some p =>
      match first_named (node_name new) (children p) with
      | Some _ => Raise TreeError
      | None =>
          Ok (update_at root pos (fun p => with_children p (children p ++ [new])))
      end
  end.

(** [node.parent = None] for the node at [pos]: it leaves its parent's
    children.  The root has no parent, so for it nothing changes. *)
Definition detach (root : TreeNode) (pos : position) : TreeNode :=
  match pos with
  | [] => root
  | _ =>
      update_at root (removelast pos)
        (fun p => with_children p (delete (List.last pos 0) (children p)))
  end.

(** ** FileSystemNodeTree *)

Record FileSystemNodeTree := MkTree {
  root_node : FileSystemNode;
  root_tree_node : option TreeNode
}.

Definition with_root_tree_node (self : FileSystemNodeTree) (t : TreeNode)
  : FileSystemNodeTree :=
  MkTree (root_node self) (Some t).

(** [create_node(node)]: the node made from an entity, before it has a
    parent.  [bigtree] raises [TreeError] for a node without a name, once
    it has attached the node; that check is in [create_node_under] and
    [__build_tree], for the nodes that a build makes. *)
Definition create_node (node : FileSystemNode) : TreeNode :=
  Node (PathLib.name (fs_path node)) (get_size node) (Some (get_type node)) [].

(** The search by name compares the name of a node with its argument by
    [==]; the store is written for a string, and the packer calls it with
    an entity.  [eq] is that comparison for arguments of type [N]. *)
Section SearchByName.

Context {N : Type}.
Variable eq : string -> N -> bool.

(** [_find_by_name]: the node itself, then its children in order, depth
    first. *)
Fixpoint _find_by_name (node : TreeNode) (name : N) : option position :=
  if eq (node_name node) name then Some []
  else
    (fix each (i : nat) (cs : list TreeNode) : option position :=
       match cs with
       | [] => None
       | child :: rest =>
           match _find_by_name child name with
           | Some p => Some (i :: p)
           | None => each (S i) rest
           end
       end) 0 (children node).

Definition search_node_by_name (self : FileSystemNodeTree) (name : N)
  : Result (option position) :=
  match root_tree_node self with
  | None => Raise AttributeError
  | Some root => Ok (_find_by_name root name)
  end.

End SearchByName.

(** The loop of [search_node_by_path]: [current] is the node reached so
    far, at position [pos]. *)
Fixpoint descend (current : TreeNode) (pos : position) (parts : list string)
  : option position :=
  match parts with
  | [] => Some pos
  | part :: rest =>
      match first_named part (children current) with
      | None => None
      | Some (i, child) => descend child (pos ++ [i]) rest
      end
  end.

Section Store.

(** The working directory of the process, which [Path.resolve] reads. *)
Variable cwd : list string.

Definition normalized_path (path : Path) : list string :=
  PathLib.parts (PathLib.resolve cwd path).

Definition search_node_by_path (self : FileSystemNodeTree) (path : Path)
  : Result (option position) :=
  match root_tree_node self with
  | None => Raise AttributeError
  | Some root => Ok (descend root [] (normalized_path path))
  end.

(** [add_node]: the node made from the entity goes last among the
    children of the node found.  For an entity without a name [bigtree]
    attaches the node and raises [TreeError] then; the store is in that
    case as given here, and the exception is not part of this
    definition. *)
Definition add_node (self : FileSystemNodeTree) (parent_path : Path)
    (child_node : FileSystemNode) : Result FileSystemNodeTree :=
  match search_node_by_path self parent_path, root_tree_node self with
  | Ok (Some pos), Some root =>
      match attach root pos (create_node child_node) with
      | Ok root' => Ok (with_root_tree_node self root')
      | Raise e => Raise e
      end
  | Ok _, _ => Raise ValueError
  | Raise e, _ => Raise e
  end.

Definition remove_node (self : FileSystemNodeTree) (path : Path)
  : Result FileSystemNodeTree :=
  match search_node_by_path self path, root_tree_node self with
  | Ok (Some pos), Some root => Ok (with_root_tree_node self (detach root pos))
  | Ok _, _ => Raise ValueError
  | Raise e, _ => Raise e
  end.

End Store.

(** ** bigtree: export to and import from a dictionary *)

(** A Python [dict] with string keys, in insertion order. *)
Definition Dict (V : Type) := list (string * V).

(** [d[k] = v]: a key already present keeps its place. *)
Fixpoint dict_set {V} (k : string) (v : V) (d : Dict V) : Dict V :=
  match d with
  | [] => [(k, v)]
  | (k', v') :: rest =>
      if String.eqb k' k then (k, v) :: rest
      else (k', v') :: dict_set k v rest
  end.

(** The attributes of one exported node, by name. *)
Definition Attrs := Dict string.

Definition dict_get {V} (k : string) (d : Dict V) : option V :=
  snd <$> List.find (fun kv => String.eqb (fst kv) k) d.

Module Str.

(** [s.lstrip(sep)] *)
Fixpoint lstrip (sep : ascii) (s : string) : string :=
  match s with
  | String c s' => if Ascii.eqb c sep then lstrip sep s' else s
  | EmptyString => EmptyString
  end.

(** [s.rstrip(sep)] *)
Fixpoint rstrip (sep : ascii) (s : string) : string :=
  match s with
  | EmptyString => EmptyString
  | String c s' =>
      match rstrip sep s' with
      | EmptyString => if Ascii.eqb c sep then EmptyString else String c EmptyString
      | r => String c r
      end
  end.

(** [s.split(sep)] *)
Fixpoint split (sep : ascii) (s : string) : list string :=
  match s with
  | EmptyString => [EmptyString]
  | String c s' =>
      if Ascii.eqb c sep then EmptyString :: split sep s'
      else
        match split sep s' with
        | h :: t => String c h :: t
        | [] => [String c EmptyString]
        end
  end.

(** Whether [c] occurs in [s]. *)
Fixpoint mem (c : ascii) (s : string) : bool :=
  match s with
  | EmptyString => false
  | String c' s' => Ascii.eqb c' c || mem c s'
  end.

End Str.

Definition sep : ascii := "/"%char.

(** [tree_to_dict(tree)] with the default arguments of [bigtree]: one entry
    per node, in pre-order, keyed by the node's [path_name] (the names from
    the root, each preceded by the separator) and holding the node's name
    under ["name"]; no other attribute is exported unless [attr_dict] or
    [all_attrs] is given. *)
Fixpoint _recursive_append (parent_path : string) (node : TreeNode)
    (data_dict : Dict Attrs) : Dict Attrs :=
  let path_name := parent_path +:+ String sep (node_name node) in
  List.fold_left (fun d child => _recursive_append path_name child d)
    (children node)
    (dict_set path_name [("name", node_name node)] data_dict).

Definition bigtree_tree_to_dict (tree : TreeNode) : Dict Attrs :=
  _recursive_append "" tree [].

(** [node.set_attrs(attrs)]: of the attributes a dictionary can hold, a
    node of this model carries the name. *)
Definition set_attrs (node : TreeNode) (attrs : Attrs) : TreeNode :=
  match dict_get "name" attrs with
  | Some n => Node n (node_size node) (node_type node) (children node)
  | None => node
  end.

(** The loop of [add_path_to_tree] below the root: each further name of
    the branch is looked up among the children of the node reached, and
    created as a last child when it is not there; the attributes go to the
    node at the end of the branch. *)
Fixpoint grow (node : TreeNode) (branch : list string) (attrs : Attrs)
  : TreeNode :=
  match branch with
  | [] => set_attrs node attrs
  | name :: rest =>
      match first_named name (children node) with
      | Some (i, child) =>
          with_children node (<[i := grow child rest attrs]> (children node))
      | None =>
          with_children node
            (children node ++ [grow (Node name None None []) rest attrs])
      end
  end.

Definition branch_of (path : string) : list string :=
  Str.split sep (Str.rstrip sep (Str.lstrip sep path)).

Definition add_path_to_tree (root : TreeNode) (path : string) (attrs : Attrs)
  : Result TreeNode :=
  match path, branch_of path with
  | EmptyString, _ => Raise ValueError
  | _, name :: rest =>
      if String.eqb name (node_name root) then Ok (grow root rest attrs)
      else Raise TreeError
  | _, [] => Raise ValueError
  end.

(** [dict_to_tree(path_attrs)]: the root is named by the first key, then
    every path is added in the order of the dictionary. *)
Definition bigtree_dict_to_tree (path_attrs : Dict Attrs) : Result TreeNode :=
  match path_attrs with
  | [] => Raise ValueError
  | (root_path, _) :: _ =>
      let root_name := List.hd "" (branch_of root_path) in
      List.fold_left
        (fun acc entry =>
           match acc with
           | Ok root => add_path_to_tree root (fst entry) (snd entry)
           | Raise e => Raise e
           end)
        path_attrs (Ok (Node root_name None None []))
  end.

(** ** Export, import, save and restore *)

(** What a file holds: the JSON text of a dictionary, or something
    [json.load] rejects.  [json.load(json.dumps(d))] is [d] for these
    dictionaries, so the text is kept as the dictionary it denotes. *)
Inductive FileContent :=
| JsonText (d : Dict Attrs)
| NotJson.

Record DiskFile := MkFile { st_mtime : Q; content : FileContent }.

(** The files on disk, by the path string they are opened with.
    Directories are not modelled: the folder of the saved trees is there
    whenever a file is opened in it. *)
Abbreviation Disk := (gmap string DiskFile).

(** A call that may write to the disk and may raise. *)
Definition IO (A : Type) := Disk -> Disk * Result A.

Definition nodetree_folder_name : string := "__nodetree__".

Definition saved_path (node_name : string) : string :=
  nodetree_folder_name +:+ "/" +:+ node_name +:+ ".json".

Definition Qltb (x y : Q) : bool := negb (Qle_bool y x).

Definition tree_to_dict (self : FileSystemNodeTree) : Result (Dict Attrs) :=
  match root_tree_node self with
  | Some root => Ok (bigtree_tree_to_dict root)
  | None => Raise AttributeError
  end.

Definition dict_to_tree (data : Dict Attrs) : Result TreeNode :=
  bigtree_dict_to_tree data.

Section Persistence.

(** [time.time()] at the moment of the call. *)
Variable now : Q.

Definition check_saved_tree (node_name : string) (max_age : option Z)
    (disk : Disk) : bool :=
  match max_age with
  | Some age =>
      match disk !! saved_path node_name with
      | Some f => Qltb (now - st_mtime f) (inject_Z age)
      | None => false
      end
  | None => bool_decide (is_Some (disk !! saved_path node_name))
  end.

(** [export]: the file is opened for writing, which empties it, before
    the tree is serialised. *)
Definition export (self : FileSystemNodeTree) (file_path : string)
  : IO unit :=
  fun disk =>
    match tree_to_dict self with
    | Ok d => (<[file_path := MkFile now (JsonText d)]> disk, Ok tt)
    | Raise e => (<[file_path := MkFile now NotJson]> disk, Raise e)
    end.

Definition importer (file_path : string) : IO TreeNode :=
  fun disk =>
    match disk !! file_path with
    | None => (disk, Raise FileNotFoundError)
    | Some f =>
        match content f with
        | JsonText d => (disk, dict_to_tree d)
        | NotJson => (disk, Raise JSONDecodeError)
        end
    end.

Definition save (self : FileSystemNodeTree) : IO unit :=
  fun disk =>
    let name := fs_name (root_node self) in
    let disk :=
      if check_saved_tree name None disk
      then delete (saved_path name) disk
      else disk in
    export self (saved_path name) disk.

Definition restore (node_name : string) : IO TreeNode :=
  fun disk =>
    if negb (check_saved_tree node_name None disk)
    then (disk, Raise FileNotFoundError)
    else importer (saved_path node_name) disk.

End Persistence.

(** ** Packer *)

Record Packer := MkPacker {
  source : FileSystemNodeTree;
  destination : FileSystemNodeTree;
  override : bool;
  merge : bool
}.

Definition with_destination (self : Packer) (d : FileSystemNodeTree) : Packer :=
  MkPacker (source self) d (override self) (merge self).

(** A method of the packer: it may change the packer's stores and may
    raise; what was changed before an exception stays changed. *)
Definition Run (A : Type) := Packer -> Packer * Result A.

Definition ret {A} (a : A) : Run A := fun self => (self, Ok a).

Definition bind {A B} (m : Run A) (k : A -> Run B) : Run B :=
  fun self =>
    match m self with
    | (self', Ok a) => k a self'
    | (self', Raise e) => (self', Raise e)
    end.

Notation "x <- m ;; k" := (bind m (fun x => k))
  (at level 100, m at next level, right associativity).
Notation "m ;; k" := (bind m (fun _ => k))
  (at level 100, right associativity).

Section PackerMethods.

Variable cwd : list string.

(** [FileSystemNode.parent] is not among the sources: the collaborator's
    answer is a parameter. *)
Variable fs_parent : FileSystemNode -> FileSystemNode.

(** [search_node_by_name] returns a [bigtree] node where the packer goes
    on with a [FileSystemNode]; how the node at the given position of the
    destination tree answers that interface ([is_instance], [path],
    [parent]) is a parameter. *)
Variable found_node : TreeNode -> position -> Result FileSystemNode.

(** [node.name == node_from_source], the comparison that the search by
    name makes when the packer calls it with an entity: [FileSystemNode]
    decides it, and is not among the sources. *)
Variable name_eq : string -> FileSystemNode -> bool.

(** [self.destination.add_node(parent.path, node)] *)
Definition packer_add_node (node parent : FileSystemNode) : Run unit :=
  fun self =>
    match add_node cwd (destination self) (fs_path parent) node with
    | Ok d => (with_destination self d, Ok tt)
    | Raise e => (self, Raise e)
    end.

(** [self.destination.remove_node(node.path)] *)
Definition packer_remove_node (node : FileSystemNode) : Run unit :=
  fun self =>
    match remove_node cwd (destination self) (fs_path node) with
    | Ok d => (with_destination self d, Ok tt)
    | Raise e => (self, Raise e)
    end.

(** [self.destination.search_node_by_name(node_from_source)] *)
Definition search_destination (node_from_source : FileSystemNode)
  : Run (option FileSystemNode) :=
  fun self =>
    match search_node_by_name name_eq (destination self) node_from_source,
          root_tree_node (destination self) with
    | Ok (Some pos), Some root =>
        match found_node root pos with
        | Ok d => (self, Ok (Some d))
        | Raise e => (self, Raise e)
        end
    | Ok _, _ => (self, Ok None)
    | Raise e, _ => (self, Raise e)
    end.

Definition replace_directory (node_from_source node_from_destination : FileSystemNode)
  : Run unit :=
  packer_remove_node node_from_destination ;;
  packer_add_node node_from_source (fs_parent node_from_destination).

Definition replace_node (node_from_source node_from_destination : FileSystemNode)
  : Run unit :=
  if is_directory node_from_source then
    if is_directory node_from_destination then
      replace_directory node_from_source node_from_destination
    else packer_add_node node_from_source (fs_parent node_from_destination)
  else packer_add_node node_from_source (fs_parent node_from_destination).

(** The loop shared by [override_directory] and [merge_directory] over
    the entries of the source directory; [recur] is what the loop calls
    on a child that was found in the destination.  The entries that
    [iter] leaves out are skipped. *)
Section Children.

Variable recur : FileSystemNode -> FileSystemNode -> Run unit.
Variable node_from_destination : FileSystemNode.

Fixpoint for_each_child (entries : list FileSystemNode) : Run unit :=
  match entries with
  | [] => ret tt
  | child_node_from_source :: rest =>
      if is_hidden child_node_from_source then for_each_child rest
      else
        (child_node_from_destination <- search_destination child_node_from_source ;;
         match child_node_from_destination with
         | Some d => recur child_node_from_source d
         | None => packer_add_node child_node_from_source node_from_destination
         end) ;;
        for_each_child rest
  end.

End Children.

Fixpoint merge_node (node_from_source node_from_destination : FileSystemNode)
    {struct node_from_source} : Run unit :=
  match node_from_source with
  | Directory _ _ entries =>
      if is_directory node_from_destination then
        (* merge_directory *)
        for_each_child merge_node node_from_destination entries
      else replace_node node_from_source node_from_destination
  | File _ _ => replace_node node_from_source node_from_destination
  end.

Definition merge_directory (node_from_source node_from_destination : FileSystemNode)
  : Run unit :=
  for_each_child merge_node node_from_destination (fs_entries node_from_source).

(** [override_node], with the [self.pack] it calls on matched children
    as a parameter. *)
Definition override_node_with
    (pack : FileSystemNode -> FileSystemNode -> Run unit)
    (node_from_source node_from_destination : FileSystemNode) : Run unit :=
  match node_from_source with
  | Directory _ _ entries =>
      if is_directory node_from_destination then
        (* override_directory *)
        for_each_child pack node_from_destination entries
      else replace_node node_from_source node_from_destination
  | File _ _ => replace_node node_from_source node_from_destination
  end.

Fixpoint pack (node_from_source : FileSystemNode)
    (node_from_destination : option FileSystemNode)
    {struct node_from_source} : Run unit :=
  node_from_destination <-
    match node_from_destination with
    | None => search_destination node_from_source
    | Some d => ret (Some d)
    end ;;
  match node_from_destination with
  | Some d =>
      fun self =>
        if override self then
          override_node_with (fun c d' => pack c (Some d')) node_from_source d self
        else if merge self then merge_node node_from_source d self
        else replace_node node_from_source d self
  | None => ret tt
  end.

Definition override_node : FileSystemNode -> FileSystemNode -> Run unit :=
  override_node_with (fun c d => pack c (Some d)).

Definition override_directory (node_from_source node_from_destination : FileSystemNode)
  : Run unit :=
  for_each_child (fun c d => pack c (Some d)) node_from_destination
    (fs_entries node_from_source).

(** [pack_all].  Modelled from the spec: [root_node.children] are the
    first-level entries of the source root. *)
Definition pack_all : Run unit :=
  fun self =>
    (fix each (nodes : list FileSystemNode) : Run unit :=
       match nodes with
       | [] => ret tt
       | node_from_source :: rest =>
           (node_from_destination <- search_destination node_from_source ;;
            pack node_from_source node_from_destination) ;;
           each rest
       end) (fs_entries (root_node (source self))) self.

End PackerMethods.

(** ** Building a store *)

(** [__post_init__]: the root entity has to be a directory. *)
Definition new_tree (root_node : FileSystemNode) : Result FileSystemNodeTree :=
  if is_directory root_node then Ok (MkTree root_node None)
  else Raise ValueError.

(** Modelled from the spec: the entity classes and [pymate] are not among
    the sources.  While a store is built an entity may fail to give its
    size or its type, a directory may fail to enumerate its entries, and
    the cache of [pymate] may answer a call of [__build_tree_recursive] in
    place of the method.  A [World] says which of these happen:
    [get_size_raises] is what [get_size()] or [get_type()] of an entity
    raises, if it does; [iter_raises] is, for a directory whose
    enumeration fails, the number of entries it gives before it fails and
    what it raises then; [cache_hit k] is whether the cache answers call
    number [k] of [__build_tree_recursive], counted from the start of the
    build; which calls these are is decided by the keys and the state of
    the cache, and every pattern of answers is some [cache_hit].  The name
    of an entity is always read, [is_instance] answers, and the decorators
    and the logger return. *)
Record World := MkWorld {
  get_size_raises : FileSystemNode -> option Exception;
  iter_raises : FileSystemNode -> option (nat * Exception);
  cache_hit : nat -> bool
}.

(** The world in which every entity answers and the cache holds nothing. *)
Definition quiet : World :=
  MkWorld (fun _ => None) (fun _ => None) (fun _ => false).

(** [except (OSError, AttributeError)]: what the loop of a build recovers
    from.  [FileNotFoundError] is an [OSError]. *)
Definition recovered (e : Exception) : bool :=
  match e with
  | OSError | FileNotFoundError | AttributeError => true
  | ValueError | TreeError | JSONDecodeError => false
  end.

(** What a part of a build leaves behind: the number of calls of
    [__build_tree_recursive] made so far, the node it works on with the
    children attached by then, and the exception that ends it, if one
    does. *)
Definition Built : Type := nat * TreeNode * option Exception.

Section Build.

Variable world : World.

(** [create_node(node, parent=tree_node)]: the size and the type of the
    entity are read before the node is made.  [bigtree] refuses a second
    child of the same name before it attaches the node, and it refuses a
    node without a name once the node is attached. *)
Definition create_node_under (node : FileSystemNode) (tree_node : TreeNode)
  : TreeNode * option Exception :=
  match get_size_raises world node with
  | Some e => (tree_node, Some e)
  | None =>
      match first_named (fs_name node) (children tree_node) with
      | Some _ => (tree_node, Some TreeError)
      | None =>
          let attached :=
            with_children tree_node (children tree_node ++ [create_node node]) in
          if String.eqb (fs_name node) EmptyString then (attached, Some TreeError)
          else (attached, None)
      end
  end.

Section BuildChildren.

Variable recur : FileSystemNode -> TreeNode -> nat -> Built.

(** The body of the [try]: the node of the entry is attached under
    [tree_node], and a directory is followed into. *)
Definition try_child (child_node : FileSystemNode) (tree_node : TreeNode) (k : nat)
  : Built :=
  match create_node_under child_node tree_node with
  | (tree_node', Some e) => (k, tree_node', Some e)
  | (tree_node', None) =>
      if is_directory child_node then
        match recur child_node (create_node child_node) k with
        | (k', child_tree_node, raised) =>
            (k', with_children tree_node (children tree_node ++ [child_tree_node]),
             raised)
        end
      else (k, tree_node', None)
  end.

(** The loop of [__build_tree_recursive] over the entries of a directory.
    The entries that [iter] leaves out are passed over; [stop] is what
    [iter_raises] says of the directory, counted down by the entries
    given.  What the [try] raises is dropped when the [except] clause
    names it, and ends the loop otherwise. *)
Fixpoint build_children (entries : list FileSystemNode) (stop : option (nat * Exception))
    (tree_node : TreeNode) (k : nat) : Built :=
  match entries with
  | [] => (k, tree_node, snd <$> stop)
  | child_node :: rest =>
      if is_hidden child_node then build_children rest stop tree_node k
      else
        match stop with
        | Some (0, e) => (k, tree_node, Some e)
        | _ =>
            let stop' :=
              match stop with
              | Some (S n, e) => Some (n, e)
              | _ => stop
              end in
            match try_child child_node tree_node k with
            | (k', tree_node', Some e) =>
                if recovered e then build_children rest stop' tree_node' k'
                else (k', tree_node', Some e)
            | (k', tree_node', None) => build_children rest stop' tree_node' k'
            end
        end
  end.

End BuildChildren.

(** [__build_tree_recursive(node, tree_node)] as call number [k]: when the
    cache answers, the method does not run and the node stays as it is.
    A file has no entries to give. *)
Fixpoint __build_tree_recursive (node : FileSystemNode) (tree_node : TreeNode)
    (k : nat) : Built :=
  if cache_hit world k then (S k, tree_node, None)
  else
    match node with
    | File _ _ => (S k, tree_node, snd <$> iter_raises world node)
    | Directory _ _ entries =>
        build_children __build_tree_recursive entries (iter_raises world node)
          tree_node (S k)
    end.

(** [__build_tree]: the root node is made and stored, then filled.  When
    the making of the root node raises, the store is as it was; when the
    filling raises, the store has the tree as far as it was built. *)
Definition __build_tree (self : FileSystemNodeTree)
  : FileSystemNodeTree * option Exception :=
  match get_size_raises world (root_node self) with
  | Some e => (self, Some e)
  | None =>
      if String.eqb (fs_name (root_node self)) EmptyString then (self, Some TreeError)
      else
        match
          __build_tree_recursive (root_node self) (create_node (root_node self)) 0
        with
        | (_, tree_node, raised) => (with_root_tree_node self tree_node, raised)
        end
  end.

End Build.

(** [build()] in a world: the store it leaves and the exception it raises,
    if it does. *)
Definition build_in (world : World) (self : FileSystemNodeTree)
  : FileSystemNodeTree * option Exception :=
  __build_tree world self.

(** [build()] where every entity answers and the cache holds nothing. *)
Definition build (self : FileSystemNodeTree) : Result FileSystemNodeTree :=
  match build_in quiet self with
  | (self', None) => Ok self'
  | (_, Some e) => Raise e
  end.

(** ** Sequences of store operations *)

Inductive StoreOp :=
| AddNode (parent_path : Path) (child_node : FileSystemNode)
| RemoveNode (path : Path).

(** One call; a call that raises leaves the store as it was. *)
Definition apply_op (cwd : list string) (self : FileSystemNodeTree) (op : StoreOp)
  : FileSystemNodeTree :=
  match op with
  | AddNode parent_path child_node =>
      match add_node cwd self parent_path child_node with
      | Ok self' => self'
      | Raise _ => self
      end
  | RemoveNode path =>
      match remove_node cwd self path with
      | Ok self' => self'
      | Raise _ => self
      end
  end.

Definition apply_ops (cwd : list string) (self : FileSystemNodeTree)
    (ops : list StoreOp) : FileSystemNodeTree :=
  List.fold_left (apply_op cwd) ops self.

(** What makes a node the node it is, apart from its links. *)
Definition node_data (t : TreeNode) : string * option Z * option Kind :=
  (node_name t, node_size t, node_type t).

Definition root_data (self : FileSystemNodeTree)
  : option (string * option Z * option Kind) :=
  node_data <$> root_tree_node self.

(** ** Scenarios *)

Definition absolute (segs : list string) : Path := PathLib.MkPath true segs.
Definition relative (segs : list string) : Path := PathLib.MkPath false segs.

(** The store built from a root entity (left unbuilt when the build
    raises). *)
Definition built (root_node : FileSystemNode) : FileSystemNodeTree :=
  match build (MkTree root_node None) with
  | Ok self => self
  | Raise _ => MkTree root_node None
  end.

(** The destination directory [/tmp/D]: [B/x.txt] of one byte and an
    empty [A]. *)
Definition dst_x : FileSystemNode :=
  File (absolute ["tmp"; "D"; "B"; "x.txt"]) (Some 1%Z).
Definition dst_B : FileSystemNode :=
  Directory (absolute ["tmp"; "D"; "B"]) None [dst_x].
Definition dst_A : FileSystemNode :=
  Directory (absolute ["tmp"; "D"; "A"]) None [].
Definition dir_D : FileSystemNode :=
  Directory (absolute ["tmp"; "D"]) None [dst_B; dst_A].

(** The source directory [/tmp/S]: [A/x.txt] of ten bytes and
    [A/sub/y.txt] of five. *)
Definition src_x : FileSystemNode :=
  File (absolute ["tmp"; "S"; "A"; "x.txt"]) (Some 10%Z).
Definition src_sub : FileSystemNode :=
  Directory (absolute ["tmp"; "S"; "A"; "sub"]) None
    [File (absolute ["tmp"; "S"; "A"; "sub"; "y.txt"]) (Some 5%Z)].
Definition src_A : FileSystemNode :=
  Directory (absolute ["tmp"; "S"; "A"]) None [src_x; src_sub].
Definition dir_S : FileSystemNode :=
  Directory (absolute ["tmp"; "S"]) None [src_A].

Definition store_D : FileSystemNodeTree := built dir_D.
Definition store_S : FileSystemNodeTree := built dir_S.

Definition tree_D : TreeNode :=
  Node "D" None (Some KDirectory)
    [Node "B" None (Some KDirectory) [Node "x.txt" (Some 1%Z) (Some KFile) []];
     Node "A" None (Some KDirectory) []].

(** The source directory [/tmp/S/B] with a file [x.txt]. *)
Definition src_B_x : FileSystemNode :=
  File (absolute ["tmp"; "S"; "B"; "x.txt"]) (Some 10%Z).
Definition src_B : FileSystemNode :=
  Directory (absolute ["tmp"; "S"; "B"]) None [src_B_x].

(** Modelled from the spec: an entity is compared with the name of a node
    by its own name. *)
Definition same_name (n : string) (e : FileSystemNode) : bool :=
  String.eqb n (fs_name e).

(** The comparison of a class that defines no equality with strings. *)
Definition never_equal (n : string) (e : FileSystemNode) : bool := false.

(** The parent of an entity as the directory at the parent path. *)
Definition parent_directory (e : FileSystemNode) : FileSystemNode :=
  Directory (PathLib.parent (fs_path e)) None [].

(** A tree that holds, under its root, a chain of nodes named like the
    parts of the absolute path [/a]: the only shape in which the search
    by path finds anything. *)
Definition tree_anchor : TreeNode :=
  Node "r" None (Some KDirectory)
    [Node "/" None (Some KDirectory) [Node "a" None (Some KFile) []]].

(** Such a tree with a directory [A] that holds [z], to be found at the
    path [/A]. *)
Definition tree_anchor_A : TreeNode :=
  Node "r" None (Some KDirectory)
    [Node "/" None (Some KDirectory)
       [Node "A" None (Some KDirectory) [Node "z" (Some 3%Z) (Some KFile) []]]].

(** A world in which the size of an entry named [x.txt] cannot be
    read. *)
Definition world_unreadable_x : World :=
  MkWorld (fun e => if String.eqb (fs_name e) "x.txt" then Some OSError else None)
    (fun _ => None) (fun _ => false).


(** A world in which a directory named [D] gives one entry and then
    fails. *)
Definition world_unlistable_D : World :=
  MkWorld (fun _ => None)
    (fun e => if String.eqb (fs_name e) "D" then Some (1, OSError) else None)
    (fun _ => false).


(** ** Predicates of the statements *)

(** A method leaves the source store as it found it. *)
Definition keeps_source {A} (m : Run A) : Prop :=
  forall self, source (fst (m self)) = source self.

(** The root of the store's tree has no child named like the anchor of an
    absolute path. *)
Definition no_anchor_child (self : FileSystemNodeTree) : Prop :=
  exists root, root_tree_node self = Some root /\
               first_named "/" (children root) = None.

(** A method changes nothing when the destination store is such a
    store. *)
Definition changes_nothing {A} (m : Run A) : Prop :=
  forall self, no_anchor_child (destination self) -> fst (m self) = self.

(** Two packers over the same stores, the first with the override policy
    and the second with the merge policy. *)
Definition override_and_merge (o m : Packer) : Prop :=
  source o = source m /\ destination o = destination m /\
  override o = true /\ override m = false /\ merge m = true.

(** Run from such a pair of packers, the two methods end in such a pair
    again, and return or raise the same. *)
Definition same_outcome {A} (mo mm : Run A) : Prop :=
  forall o m, override_and_merge o m ->
    override_and_merge (fst (mo o)) (fst (mm m)) /\ snd (mo o) = snd (mm m).

(** ** The trees that a directory gives *)

(** A name of a filesystem entry: not empty, and free of the separator. *)
Definition good_name (n : string) : bool :=
  negb (String.eqb n "") && negb (Str.mem sep n).

(** An entity whose own name and whose entries' names, as far as [iter]
    shows them, are names of filesystem entries. *)
Fixpoint entity_well_named (e : FileSystemNode) : bool :=
  good_name (fs_name e)
  && match e with
     | File _ _ => true
     | Directory _ _ entries =>
         forallb (fun c => is_hidden c || entity_well_named c) entries
     end.

Fixpoint distinct_names (ns : list string) : bool :=
  match ns with
  | [] => true
  | n :: rest => negb (existsb (String.eqb n) rest) && distinct_names rest
  end.

(** Every name in the tree is the name of an entry, and no two children
    of a node have the same name. *)
Fixpoint well_named (t : TreeNode) : bool :=
  good_name (node_name t)
  && distinct_names (map node_name (children t))
  && forallb well_named (children t).

(** The tree with the same names and the same children in the same order
    at every node, and no size or type attribute anywhere. *)
Fixpoint names_only (t : TreeNode) : TreeNode :=
  Node (node_name t) None None (map names_only (children t)).

(** [path_name] of the node reached from the root through the nodes of
    these names. *)
Fixpoint path_str (names : list string) : string :=
  match names with
  | [] => ""
  | n :: rest => String sep n +:+ path_str rest
  end.

(** The nodes of a tree in pre-order, each as the names on the way to it
    from the root, the root's own name left out. *)
Fixpoint rel_paths (t : TreeNode) : list (list string) :=
  [] :: flat_map (fun c => map (cons (node_name c)) (rel_paths c)) (children t).

(** The entry that the export makes for the node at the relative path [r]
    of a tree whose root is named [n] and lies under the nodes named
    [above]. *)
Definition entry_of (above : list string) (n : string) (r : list string)
  : string * Attrs :=
  (path_str (above ++ n :: r), [("name", List.last r n)]).

(** The import of the entry of [r] into the tree [acc] with root name
    [n]. *)
Definition grow_entry (n : string) (acc : TreeNode) (r : list string) : TreeNode :=
  grow acc r [("name", List.last r n)].

(** ** The tree that mirrors an entity *)

(** The entries of a directory that [iter] gives. *)
Definition visible (entries : list FileSystemNode) : list FileSystemNode :=
  List.filter (fun c => negb (is_hidden c)) entries.

(** The tree with a node for the entity and, under it, the mirror of every
    entry that [iter] gives, in order. *)
Fixpoint mirror (e : FileSystemNode) : TreeNode :=
  match e with
  | File _ _ => create_node e
  | Directory _ _ entries =>
      with_children (create_node e)
        (flat_map (fun c => if is_hidden c then [] else [mirror c]) entries)
  end.

(** In every directory of the entity, the entries that [iter] gives have
    names that differ from one another. *)
Fixpoint visible_distinct (e : FileSystemNode) : bool :=
  match e with
  | File _ _ => true
  | Directory _ _ entries =>
      distinct_names (map fs_name (visible entries))
      && forallb (fun c => is_hidden c || visible_distinct c) entries
  end.

(** In every directory of the entity, the entries that [iter] gives have
    a name. *)
Fixpoint visible_named (e : FileSystemNode) : bool :=
  match e with
  | File _ _ => true
  | Directory _ _ entries =>
      forallb (fun c => is_hidden c
                        || (negb (String.eqb (fs_name c) EmptyString) && visible_named c))
        entries
  end.

(** What [bigtree] asks of the names met in a build: the root entity has
    a name, and so has every entry that [iter] gives, and no two of these
    in one directory have the same name. *)
Definition buildable (e : FileSystemNode) : bool :=
  negb (String.eqb (fs_name e) EmptyString) && visible_named e && visible_distinct e.

#[local] Unset Elimination Schemes.

(** A tree is a pruning of another when it has the same name, size and
    type at the root and its children are prunings of some of the children
    of the other, in the same order. *)
Inductive pruned : TreeNode -> TreeNode -> Prop :=
| pruned_node n s k cs ms kept :
    sublist kept ms -> Forall2 pruned cs kept ->
    pruned (Node n s k cs) (Node n s k ms).

#[local] Set Elimination Schemes.

(** ** Positions in pre-order *)

(** The loop of [_find_by_name] over the children of a node, from the
    child of index [i] on. *)
Fixpoint find_among {N} (eq : string -> N -> bool) (name : N) (i : nat)
    (cs : list TreeNode) : option position :=
  match cs with
  | [] => None
  | child :: rest =>
      match _find_by_name eq child name with
      | Some p => Some (i :: p)
      | None => find_among eq name (S i) rest
      end
  end.

(** [p] comes no later than [q] when the tree is walked depth first, a
    node before its children and the children in order. *)
Fixpoint preorder_le (p q : position) : bool :=
  match p, q with
  | [], _ => true
  | _ :: _, [] => false
  | i :: p', j :: q' => Nat.ltb i j || (Nat.eqb i j && preorder_le p' q')
  end.

(** ** Names along a position *)

(** The names of the nodes met on the way from a node down to the node at
    [pos], the starting node left out. *)
Fixpoint names_along (t : TreeNode) (pos : position) : option (list string) :=
  match pos with
  | [] => Some []
  | i :: rest =>
      match children t !! i with
      | Some c => cons (node_name c) <$> names_along c rest
      | None => None
      end
  end.

(** No two children of a node of the tree have the same name, which
    [bigtree] keeps true of every tree of its nodes. *)
Fixpoint distinct_siblings (t : TreeNode) : bool :=
  distinct_names (map node_name (children t))
  && forallb distinct_siblings (children t).

(** ** Trees that grow *)

(** Every node of [t] is a node of [t'], at the same position and with the
    same name, size and type. *)
Definition extends (t t' : TreeNode) : Prop :=
  forall q n, node_at t q = Some n ->
              exists n', node_at t' q = Some n' /\ node_data n' = node_data n.

(** The node with one more child, put last. *)
Definition with_last_child (new p : TreeNode) : TreeNode :=
  with_children p (children p ++ [new]).

(** The node without its child of index [i]. *)
Definition without_child (i : nat) (p : TreeNode) : TreeNode :=
  with_children p (delete i (children p)).

(** ** Invariants of the packer *)

(** The method keeps [I] true of the packer. *)
Definition preserves (I : Packer -> Prop) {A} (m : Run A) : Prop :=
  forall self, I self -> I (fst (m self)).

(** The store has a tree, and no two siblings of the tree share a name. *)
Definition tree_with_distinct_siblings (d : FileSystemNodeTree) : Prop :=
  exists root, root_tree_node d = Some root /\ distinct_siblings root = true.

(** ** Stores that grow *)

(** Every node of the tree of [d] is a node of the tree of [d'], at the
    same position and with the same data. *)
Definition store_extends (d d' : FileSystemNodeTree) : Prop :=
  match root_tree_node d, root_tree_node d' with
  | Some r, Some r' => extends r r'
  | Some _, None => False
  | None, _ => True
  end.

(** The packer has the override or the merge policy. *)
Definition union_policy (p : Packer) : Prop :=
  override p = true \/ merge p = true.

(** Started from a packer of which [C] holds, the method ends with a
    packer of which [C] holds and whose destination store has every node
    it had. *)
Definition grows_when (C : Packer -> Prop) {A} (m : Run A) : Prop :=
  forall self, C self ->
    store_extends (destination self) (destination (fst (m self))) /\
    C (fst (m self)).

(** * Properties *)

(** ** Induction over entities and over trees *)

Lemma FileSystemNode_nested_ind (P : FileSystemNode -> Prop) :
  (forall path size, P (File path size)) ->
  (forall path size entries, Forall P entries -> P (Directory path size entries)) ->
  forall e, P e.
Proof.
  intros HF HD.
  fix IH 1. intros [path size | path size entries].
  - apply HF.
  - apply HD. induction entries as [| c cs IHcs]; constructor.
    + apply IH.
    + exact IHcs.
Qed.

Lemma TreeNode_nested_ind (P : TreeNode -> Prop) :
  (forall name size type cs, Forall P cs -> P (Node name size type cs)) ->
  forall t, P t.
Proof.
  intros HN.
  fix IH 1. intros [name size type cs].
  apply HN. induction cs as [| c cs IHcs]; constructor.
  - apply IH.
  - exact IHcs.
Qed.

(** ** Path search *)

Lemma normalized_path_anchor cwd path :
  normalized_path cwd path = "/" :: PathLib.segments (PathLib.resolve cwd path).
Proof. reflexivity. Qed.

Lemma first_named_lookup part cs i c :
  first_named part cs = Some (i, c) ->
  cs !! i = Some c /\ node_name c = part.
Proof.
  revert i c. induction cs as [| d cs IH]; intros i c; simpl; [discriminate |].
  destruct (String.eqb (node_name d) part) eqn:E.
  - intros [= <- <-]. apply String.eqb_eq in E. auto.
  - destruct (first_named part cs) as [[j e] |]; [| discriminate].
    intros [= <- <-]. simpl. apply IH. reflexivity.
Qed.

Lemma first_named_None part cs :
  first_named part cs = None <-> Forall (fun c => node_name c <> part) cs.
Proof.
  induction cs as [| d cs IH]; simpl.
  - split; [constructor | reflexivity].
  - destruct (String.eqb (node_name d) part) eqn:E.
    + apply String.eqb_eq in E. split; [discriminate |].
      intros H. inversion H; subst. congruence.
    + apply String.eqb_neq in E.
      destruct (first_named part cs) as [[j e] |].
      * split; [discriminate |]. intros H. inversion H; subst.
        apply IH in H3. discriminate.
      * split; [| reflexivity]. intros _. constructor; [exact E |].
        apply IH. reflexivity.
Qed.

(** The loop goes down one level for every part it consumes. *)
Lemma descend_depth current pos parts p :
  descend current pos parts = Some p ->
  exists q, p = pos ++ q /\ length q = length parts.
Proof.
  revert current pos p. induction parts as [| part rest IH]; intros current pos p; simpl.
  - intros [= <-]. exists []. split; [by rewrite app_nil_r | reflexivity].
  - destruct (first_named part (children current)) as [[i child] |]; [| discriminate].
    intros H. apply IH in H as (q & -> & Hq).
    exists (i :: q). split; [by rewrite <- app_assoc | simpl; by rewrite Hq].
Qed.

(** The position the loop returns is the position of a node of the tree. *)
Lemma descend_node_at root current pos parts p :
  node_at root pos = Some current ->
  descend current pos parts = Some p ->
  is_Some (node_at root p).
Proof.
  revert current pos p. induction parts as [| part rest IH]; intros current pos p Hpos; simpl.
  - intros [= <-]. eauto.
  - destruct (first_named part (children current)) as [[i child] |] eqn:E; [| discriminate].
    apply first_named_lookup in E as [Hi _].
    apply IH. clear IH.
    revert root Hpos. induction pos as [| j pos IHpos]; intros root; simpl.
    + intros [= ->]. by rewrite Hi.
    + destruct (children root !! j); [apply IHpos | discriminate].
Qed.

(** No node of a tree is found by path when the root has no child whose
    name is the anchor of an absolute path. *)
Lemma search_node_by_path_anchor cwd self root path :
  root_tree_node self = Some root ->
  first_named "/" (children root) = None ->
  search_node_by_path cwd self path = Ok None.
Proof.
  intros Hroot Hnone. unfold search_node_by_path. rewrite Hroot.
  rewrite normalized_path_anchor. simpl. by rewrite Hnone.
Qed.

Lemma remove_node_anchor cwd self root path :
  root_tree_node self = Some root ->
  first_named "/" (children root) = None ->
  remove_node cwd self path = Raise ValueError.
Proof.
  intros Hroot Hnone. unfold remove_node.
  by rewrite (search_node_by_path_anchor cwd self root path Hroot Hnone).
Qed.

Lemma add_node_anchor cwd self root parent_path child_node :
  root_tree_node self = Some root ->
  first_named "/" (children root) = None ->
  add_node cwd self parent_path child_node = Raise ValueError.
Proof.
  intros Hroot Hnone. unfold add_node.
  by rewrite (search_node_by_path_anchor cwd self root parent_path Hroot Hnone).
Qed.

Example store_D_built : root_tree_node store_D = Some tree_D.
Proof. reflexivity. Qed.

Example search_in_tree_anchor cwd :
  search_node_by_path cwd (MkTree dir_D (Some tree_anchor)) (absolute ["a"])
  = Ok (Some [0; 0]).
Proof. reflexivity. Qed.

(** C2.  The node [x.txt] is in the tree built from [/tmp/D], at position
    [[0; 0]], and the search by path does not return it: not for its
    absolute path, not for its path relative to the root directory taken
    from inside that directory, not for its [path_name] in the tree.  Each
    time the first part is the anchor ["/"], which no child of the root is
    named, and the search answers [None]. *)
Theorem search_node_by_path_misses_present_node (cwd : list string) :
  node_at tree_D [0; 0] = Some (Node "x.txt" (Some 1%Z) (Some KFile) []) /\
  search_node_by_path cwd store_D (absolute ["tmp"; "D"; "B"; "x.txt"]) = Ok None /\
  search_node_by_path ["tmp"; "D"] store_D (relative ["B"; "x.txt"]) = Ok None /\
  search_node_by_path cwd store_D (absolute ["D"; "B"; "x.txt"]) = Ok None.
Proof. repeat split; reflexivity. Qed.

(** ** The root is out of reach of the search by path *)

Lemma update_at_node_data t pos f :
  (forall u, node_data (f u) = node_data u) ->
  node_data (update_at t pos f) = node_data t.
Proof.
  intros Hf. destruct pos as [| i rest]; simpl; [apply Hf |].
  destruct (children t !! i); reflexivity.
Qed.

Lemma detach_node_data root pos : node_data (detach root pos) = node_data root.
Proof.
  destruct pos as [| i rest]; [reflexivity |].
  unfold detach. by apply update_at_node_data.
Qed.

Lemma attach_node_data root pos new root' :
  attach root pos new = Ok root' -> node_data root' = node_data root.
Proof.
  unfold attach. destruct (node_at root pos); [| discriminate].
  destruct (first_named (node_name new) _); [discriminate |].
  intros [= <-]. by apply update_at_node_data.
Qed.

Lemma search_node_by_path_below_root cwd self path pos :
  search_node_by_path cwd self path = Ok (Some pos) ->
  1 <= length pos /\ is_Some (parent_of pos).
Proof.
  unfold search_node_by_path. destruct (root_tree_node self) as [root |]; [| discriminate].
  pose proof (normalized_path_anchor cwd path) as Hparts.
  destruct (normalized_path cwd path) as [| part rest]; [discriminate |].
  intros H. assert (Hd : descend root [] (part :: rest) = Some pos) by congruence.
  apply descend_depth in Hd as (q & -> & Hq).
  destruct q as [| i q]; [discriminate |]. split; [simpl; lia | by eexists].
Qed.

Lemma apply_op_root_data cwd self op :
  root_data (apply_op cwd self op) = root_data self.
Proof.
  destruct op as [parent_path child_node | path]; simpl.
  - unfold add_node.
    destruct (search_node_by_path cwd self parent_path) as [[pos |] |]; try reflexivity.
    destruct (root_tree_node self) as [root |] eqn:Hroot; [| reflexivity].
    destruct (attach root pos (create_node child_node)) as [root' |] eqn:Ha; [| reflexivity].
    unfold root_data. rewrite Hroot. simpl. f_equal. by eapply attach_node_data.
  - unfold remove_node.
    destruct (search_node_by_path cwd self path) as [[pos |] |]; try reflexivity.
    destruct (root_tree_node self) as [root |] eqn:Hroot; [| reflexivity].
    unfold root_data. rewrite Hroot. simpl. f_equal. apply detach_node_data.
Qed.

(** C10.  Whatever the path, the search by path does not return the root:
    a position it returns is at least one level down and has a parent.
    So the node that [remove_node] detaches is never the root, and after
    any sequence of [add_node] and [remove_node] calls the store still has
    the root it had, at the position that has no parent. *)
Theorem root_unreachable_by_path (cwd : list string) (self : FileSystemNodeTree) :
  (forall path,
     match search_node_by_path cwd self path with
     | Ok (Some pos) => 1 <= length pos /\ is_Some (parent_of pos)
     | _ => True
     end) /\
  (forall path,
     match remove_node cwd self path, root_tree_node self with
     | Ok self', Some root =>
         exists pos, pos <> [] /\ root_tree_node self' = Some (detach root pos)
     | Ok _, None => False
     | Raise _, _ => True
     end) /\
  (forall ops,
     root_data (apply_ops cwd self ops) = root_data self /\
     parent_of [] = None).
Proof.
  split; [| split].
  - intros path.
    destruct (search_node_by_path cwd self path) as [[pos |] |] eqn:E; try exact I.
    by eapply search_node_by_path_below_root.
  - intros path. unfold remove_node.
    destruct (search_node_by_path cwd self path) as [[pos |] |] eqn:E; try exact I.
    destruct (root_tree_node self) as [root |] eqn:Hroot; [| exact I].
    exists pos. split; [| reflexivity].
    apply search_node_by_path_below_root in E as [Hlen _].
    intros ->. simpl in Hlen. lia.
  - intros ops. split; [| reflexivity].
    unfold apply_ops. revert self.
    induction ops as [| op ops IH]; intros self; simpl; [reflexivity |].
    rewrite IH. apply apply_op_root_data.
Qed.

(** ** Detaching and attaching by path *)

Example remove_in_tree_anchor cwd :
  root_tree_node <$>
    (match remove_node cwd (MkTree dir_D (Some tree_anchor)) (absolute ["a"]) with
     | Ok self => Some self
     | Raise _ => None
     end)
  = Some (Some (Node "r" None (Some KDirectory) [Node "/" None (Some KDirectory) []])).
Proof. reflexivity. Qed.

(** C6.  In the store built from [/tmp/D] the node [x.txt] is attached
    under [B].  [remove_node] with the path of [x.txt] raises [ValueError]
    and detaches nothing, and [add_node] with the path of [B] raises
    [ValueError] as well: both look their path up with
    [search_node_by_path], which finds no node of this tree. *)
Theorem remove_then_add_raises (cwd : list string) :
  node_at tree_D [0] = Some (Node "B" None (Some KDirectory)
                               [Node "x.txt" (Some 1%Z) (Some KFile) []]) /\
  remove_node cwd store_D (fs_path dst_x) = Raise ValueError /\
  add_node cwd store_D (fs_path dst_B) dst_x = Raise ValueError /\
  apply_ops cwd store_D [RemoveNode (fs_path dst_x); AddNode (fs_path dst_B) dst_x]
  = store_D.
Proof. repeat split; reflexivity. Qed.

(** C3.  The replace action on the directories [/tmp/S/A] and [/tmp/D/A],
    with the destination store built from [/tmp/D]: [replace_directory]
    starts with [remove_node], whose lookup of [/tmp/D/A] by path finds
    nothing, so the action raises [ValueError] and the destination keeps
    [A]; no node is detached and none is attached.  The same holds when
    the action is reached through [replace_node] and through [pack] with
    neither policy flag set. *)
Theorem replace_directory_raises (cwd : list string)
    (fs_parent : FileSystemNode -> FileSystemNode)
    (found_node : TreeNode -> position -> Result FileSystemNode)
    (name_eq : string -> FileSystemNode -> bool) :
  let self := MkPacker store_S store_D false false in
  is_directory src_A = true /\ is_directory dst_A = true /\
  replace_directory cwd fs_parent src_A dst_A self = (self, Raise ValueError) /\
  replace_node cwd fs_parent src_A dst_A self = (self, Raise ValueError) /\
  pack cwd fs_parent found_node name_eq src_A (Some dst_A) self = (self, Raise ValueError) /\
  node_at tree_D [1] = Some (Node "A" None (Some KDirectory) []).
Proof. repeat split; reflexivity. Qed.

(** ** The lookup of a child by name *)

(** C5.  Override of [/tmp/S/A] onto [/tmp/D/A]: the child [x.txt] of the
    source directory is looked up with [search_node_by_name] on the whole
    destination tree.  With entities compared by name, [A], at position
    [[1]], has no child of that name; the lookup returns the node at
    [[0; 0]], the [x.txt] under [B], and that node is what
    [override_directory] hands to [pack], instead of attaching [x.txt]
    under [A].  With a comparison that never holds, the lookup finds
    nothing even for [/tmp/S/B] onto [/tmp/D/B], where [B] has a child
    [x.txt]: the method goes on to attach. *)
Theorem override_directory_lookup_is_global (cwd : list string)
    (fs_parent : FileSystemNode -> FileSystemNode)
    (found_node : TreeNode -> position -> Result FileSystemNode) :
  let self := MkPacker store_S store_D true false in
  In src_x (iter src_A) /\
  node_at tree_D [1] = Some (Node "A" None (Some KDirectory) []) /\
  (forall a, node_at tree_D [1] = Some a ->
             first_named (fs_name src_x) (children a) = None) /\
  search_node_by_name same_name store_D src_x = Ok (Some [0; 0]) /\
  search_destination found_node same_name src_x self
  = match found_node tree_D [0; 0] with
    | Ok d => (self, Ok (Some d))
    | Raise e => (self, Raise e)
    end /\
  override_directory cwd fs_parent found_node same_name src_A dst_A self
  = ((match found_node tree_D [0; 0] with
      | Ok d => pack cwd fs_parent found_node same_name src_x (Some d)
      | Raise e => fun self => (self, Raise e)
      end) ;;
     for_each_child cwd found_node same_name
       (fun c d => pack cwd fs_parent found_node same_name c (Some d)) dst_A [src_sub]) self /\
  (forall b, node_at tree_D [0] = Some b ->
             fst <$> first_named (fs_name src_B_x) (children b) = Some 0) /\
  search_node_by_name never_equal store_D src_B_x = Ok None /\
  override_directory cwd fs_parent found_node never_equal src_B dst_B self
  = packer_add_node cwd src_B_x dst_B self.
Proof.
  repeat split; try reflexivity.
  - left. reflexivity.
  - by intros a [= <-].
  - unfold override_directory. simpl fs_entries.
    unfold for_each_child at 1. fold (for_each_child cwd found_node same_name).
    change (is_hidden src_x) with false. cbv iota.
    unfold bind at 1 2.
    change (search_destination found_node same_name src_x
              {| source := store_S; destination := store_D; override := true; merge := false |})
      with (match found_node tree_D [0; 0] with
            | Ok d => ({| source := store_S; destination := store_D;
                          override := true; merge := false |}, Ok (Some d))
            | Raise e => ({| source := store_S; destination := store_D;
                             override := true; merge := false |}, Raise e)
            end).
    unfold bind. destruct (found_node tree_D [0; 0]); reflexivity.
  - by intros b [= <-].
Qed.

(** ** Saved trees *)

Lemma Qltb_lt x y : Qltb x y = true <-> (x < y)%Q.
Proof.
  unfold Qltb. rewrite negb_true_iff. split.
  - intros H. apply Qnot_le_lt. intros Hle.
    apply Qle_bool_iff in Hle. congruence.
  - intros H. destruct (Qle_bool y x) eqn:E; [| reflexivity].
    apply Qle_bool_iff in E. exfalso. by eapply Qlt_not_le.
Qed.

Lemma lookup_after_save t self disk :
  exists c, fst (save t self disk) !! saved_path (fs_name (root_node self))
            = Some (MkFile t c).
Proof.
  unfold save, export.
  destruct (tree_to_dict self); simpl; rewrite lookup_insert_eq; eauto.
Qed.

(** The age gate as the code has it.  Without [max_age] the check is true
    exactly when the saved file of that name exists, whatever its age.
    With [max_age] it is true exactly when the file exists and its age,
    the time now less the time of its last write, is below [max_age].  So
    with [max_age = 0] it is false for a file of any age above zero, and
    it is false from the moment a save has been made on, while without
    [max_age] it is true after a save. *)
Theorem check_saved_tree_age_gate (now : Q) (node_name : string) (disk : Disk) :
  (check_saved_tree now node_name None disk = true
   <-> is_Some (disk !! saved_path node_name)) /\
  (forall max_age : Z,
     check_saved_tree now node_name (Some max_age) disk = true
     <-> exists f, disk !! saved_path node_name = Some f /\
                   (now - st_mtime f < inject_Z max_age)%Q) /\
  (forall f, disk !! saved_path node_name = Some f ->
             (0 < now - st_mtime f)%Q ->
             check_saved_tree now node_name (Some 0%Z) disk = false) /\
  (forall (self : FileSystemNodeTree) (t : Q),
     (t <= now)%Q ->
     let disk' := fst (save t self disk) in
     let name := fs_name (root_node self) in
     check_saved_tree now name (Some 0%Z) disk' = false /\
     check_saved_tree now name None disk' = true).
Proof.
  split; [| split; [| split]].
  - unfold check_saved_tree. apply bool_decide_eq_true.
  - intros max_age. unfold check_saved_tree. split.
    + destruct (disk !! saved_path node_name) as [f |]; [| discriminate].
      intros H. exists f. split; [reflexivity | by apply Qltb_lt].
    + intros (f & Hf & Hage). rewrite Hf. by apply Qltb_lt.
  - intros f Hf Hage. unfold check_saved_tree. rewrite Hf.
    destruct (Qltb (now - st_mtime f) (inject_Z 0)) eqn:E; [| reflexivity].
    apply Qltb_lt in E. exfalso.
    apply (Qlt_irrefl 0). by eapply Qlt_trans.
  - intros self t Ht disk' name. subst disk' name.
    destruct (lookup_after_save t self disk) as [c Hc].
    unfold check_saved_tree. rewrite Hc. simpl. split.
    + destruct (Qltb (now - t) (inject_Z 0)) eqn:E; [| reflexivity].
      apply Qltb_lt in E. exfalso.
      apply (Qlt_not_le _ _ E). change (inject_Z 0) with 0%Q.
      by apply -> Qle_minus_iff.
    + reflexivity.
Qed.

(** C7.  A saved tree whose age is [max_age], neither more nor less, is
    within that age and is not older than it, which is what the comment
    above the comparison asks for; the comparison is strict and the check
    answers [false].  In particular the check made with [max_age = 0] at
    the moment of a save, when the age of the file is zero, is [false]. *)
Theorem check_saved_tree_refuses_the_maximum_age (now : Q) (node_name : string)
    (disk : Disk) (f : DiskFile) (max_age : Z) :
  disk !! saved_path node_name = Some f ->
  (now - st_mtime f == inject_Z max_age)%Q ->
  check_saved_tree now node_name (Some max_age) disk = false /\
  check_saved_tree now node_name None disk = true /\
  (forall self : FileSystemNodeTree,
     check_saved_tree now (fs_name (root_node self)) (Some 0%Z)
       (fst (save now self disk)) = false).
Proof.
  intros Hf Hage. split; [| split].
  - unfold check_saved_tree. rewrite Hf.
    destruct (Qltb (now - st_mtime f) (inject_Z max_age)) eqn:E; [| reflexivity].
    apply Qltb_lt in E. rewrite Hage in E. by apply Qlt_irrefl in E.
  - unfold check_saved_tree. rewrite Hf. by apply bool_decide_eq_true.
  - intros self. destruct (lookup_after_save now self disk) as [c Hc].
    unfold check_saved_tree. rewrite Hc. simpl.
    destruct (Qltb (now - now) (inject_Z 0)) eqn:E; [| reflexivity].
    apply Qltb_lt in E. exfalso. apply (Qlt_irrefl 0).
    by rewrite <- (Qplus_opp_r now) at 1.
Qed.

Lemma check_saved_tree_refuses_the_maximum_age_witness :
  let disk : Disk := {[ saved_path "D" := MkFile 5 NotJson ]} in
  disk !! saved_path "D" = Some (MkFile 5 NotJson) /\
  (7 - 5 == inject_Z 2)%Q /\
  check_saved_tree 7 "D" (Some 2%Z) disk = false /\
  check_saved_tree 7 "D" None disk = true.
Proof.
  intros disk.
  destruct (check_saved_tree_refuses_the_maximum_age 7 "D" disk (MkFile 5 NotJson) 2
              eq_refl eq_refl) as (Hmax & Hnone & _).
  repeat split; assumption.
Defined.

Lemma add_path_to_tree_raises root path attrs e :
  add_path_to_tree root path attrs = Raise e -> e = ValueError \/ e = TreeError.
Proof.
  unfold add_path_to_tree. destruct path as [| c path].
  - intros [= <-]. by left.
  - destruct (branch_of (String c path)) as [| name rest].
    + intros [= <-]. by left.
    + destruct (String.eqb name (node_name root)); [discriminate |].
      intros [= <-]. by right.
Qed.

Lemma dict_to_tree_raises data e :
  dict_to_tree data = Raise e -> e = ValueError \/ e = TreeError.
Proof.
  unfold dict_to_tree, bigtree_dict_to_tree.
  destruct data as [| [root_path attrs0] rest]; [intros [= <-]; by left |].
  generalize ((root_path, attrs0) :: rest) as entries.
  generalize (Node (List.hd "" (branch_of root_path)) None None []) as root.
  intros root entries.
  assert (Hacc : forall e', Ok root = Raise e' -> e' = ValueError \/ e' = TreeError)
    by discriminate.
  revert Hacc. generalize (Ok root) as acc. clear root. revert e.
  induction entries as [| [path attrs] entries IH]; intros e acc Hacc; simpl.
  - apply Hacc.
  - apply IH. intros e'. destruct acc as [root | e0].
    + apply add_path_to_tree_raises.
    + apply Hacc.
Qed.

(** C8.  [restore] raises [FileNotFoundError] exactly when no saved file
    of that name is on the disk, and the disk after a call to [restore],
    failed or not, is the disk before it: the call writes nothing and
    touches no store. *)
Theorem restore_not_found_iff (now : Q) (node_name : string) (disk : Disk) :
  (snd (restore now node_name disk) = Raise FileNotFoundError
   <-> disk !! saved_path node_name = None) /\
  fst (restore now node_name disk) = disk.
Proof.
  unfold restore, check_saved_tree, importer.
  destruct (disk !! saved_path node_name) as [f |] eqn:Hf.
  - rewrite bool_decide_eq_true_2 by eauto. simpl.
    split; [split; [| discriminate] |].
    + destruct (content f) as [d |]; simpl; [| discriminate].
      intros H. apply dict_to_tree_raises in H as [H | H]; discriminate.
    + by destruct (content f).
  - rewrite bool_decide_eq_false_2 by (intros [? ?]; discriminate). simpl.
    split; [split |]; reflexivity.
Qed.

(** ** What the packer leaves alone *)

Section Frame.

Variable cwd : list string.
Variable fs_parent : FileSystemNode -> FileSystemNode.
Variable found_node : TreeNode -> position -> Result FileSystemNode.
Variable name_eq : string -> FileSystemNode -> bool.

Lemma keeps_source_ret {A} (a : A) : keeps_source (ret a).
Proof. intros self. reflexivity. Qed.

Lemma keeps_source_bind {A B} (m : Run A) (k : A -> Run B) :
  keeps_source m -> (forall a, keeps_source (k a)) -> keeps_source (bind m k).
Proof.
  intros Hm Hk self. unfold bind. specialize (Hm self).
  destruct (m self) as [self' [a | e]]; simpl in *; [| exact Hm].
  by rewrite Hk.
Qed.

Lemma keeps_source_add_node node parent :
  keeps_source (packer_add_node cwd node parent).
Proof.
  intros self. unfold packer_add_node.
  by destruct (add_node cwd (destination self) (fs_path parent) node).
Qed.

Lemma keeps_source_remove_node node :
  keeps_source (packer_remove_node cwd node).
Proof.
  intros self. unfold packer_remove_node.
  by destruct (remove_node cwd (destination self) (fs_path node)).
Qed.

Lemma keeps_source_search node :
  keeps_source (search_destination found_node name_eq node).
Proof.
  intros self. unfold search_destination.
  destruct (search_node_by_name name_eq (destination self) node) as [[pos |] |];
    try reflexivity.
  destruct (root_tree_node (destination self)) as [root |]; [| reflexivity].
  by destruct (found_node root pos).
Qed.

Lemma keeps_source_replace_directory src dst :
  keeps_source (replace_directory cwd fs_parent src dst).
Proof.
  apply keeps_source_bind; [apply keeps_source_remove_node |].
  intros _. apply keeps_source_add_node.
Qed.

Lemma keeps_source_replace_node src dst :
  keeps_source (replace_node cwd fs_parent src dst).
Proof.
  unfold replace_node.
  destruct (is_directory src), (is_directory dst);
    auto using keeps_source_replace_directory, keeps_source_add_node.
Qed.

Lemma keeps_source_for_each_child recur dst entries :
  Forall (fun c => forall d, keeps_source (recur c d)) entries ->
  keeps_source (for_each_child cwd found_node name_eq recur dst entries).
Proof.
  induction 1 as [| c cs Hc _ IH]; simpl; [apply keeps_source_ret |].
  destruct (is_hidden c); [exact IH |].
  apply keeps_source_bind; [| intros _; exact IH].
  apply keeps_source_bind; [apply keeps_source_search |].
  intros [d |]; [apply Hc | apply keeps_source_add_node].
Qed.

Lemma keeps_source_merge_node src :
  forall dst, keeps_source (merge_node cwd fs_parent found_node name_eq src dst).
Proof.
  induction src as [path size | path size entries IH] using FileSystemNode_nested_ind;
    intros dst; simpl.
  - apply keeps_source_replace_node.
  - destruct (is_directory dst).
    + by apply keeps_source_for_each_child.
    + apply (keeps_source_replace_node (Directory path size entries)).
Qed.

Lemma pack_unfold src d self :
  pack cwd fs_parent found_node name_eq src (Some d) self
  = if override self then
      override_node_with cwd fs_parent found_node name_eq
        (fun c d' => pack cwd fs_parent found_node name_eq c (Some d')) src d self
    else if merge self then merge_node cwd fs_parent found_node name_eq src d self
    else replace_node cwd fs_parent src d self.
Proof. destruct src; reflexivity. Qed.

Lemma pack_unfold_search src :
  pack cwd fs_parent found_node name_eq src None
  = bind (search_destination found_node name_eq src)
      (fun found =>
         match found with
         | Some d => pack cwd fs_parent found_node name_eq src (Some d)
         | None => ret tt
         end).
Proof. destruct src; reflexivity. Qed.

Lemma keeps_source_pack_found src :
  forall d, keeps_source (pack cwd fs_parent found_node name_eq src (Some d)).
Proof.
  induction src as [path size | path size entries IH] using FileSystemNode_nested_ind;
    intros d self; rewrite pack_unfold.
  - destruct (override self); [| destruct (merge self)];
      apply keeps_source_replace_node.
  - destruct (override self); [| destruct (merge self)].
    + simpl. destruct (is_directory d).
      * by apply keeps_source_for_each_child.
      * apply (keeps_source_replace_node (Directory path size entries)).
    + apply keeps_source_merge_node.
    + apply keeps_source_replace_node.
Qed.

Lemma keeps_source_pack src dst :
  keeps_source (pack cwd fs_parent found_node name_eq src dst).
Proof.
  destruct dst as [d |]; [apply keeps_source_pack_found |].
  rewrite pack_unfold_search.
  apply keeps_source_bind; [apply keeps_source_search |].
  intros [d |]; [apply keeps_source_pack_found | apply keeps_source_ret].
Qed.

Lemma keeps_source_pack_all : keeps_source (pack_all cwd fs_parent found_node name_eq).
Proof.
  intros self. unfold pack_all.
  generalize (fs_entries (root_node (source self))) as nodes.
  revert self. change (forall (self : Packer) (nodes : list FileSystemNode),
    source (fst ((fix each (nodes : list FileSystemNode) : Run unit :=
       match nodes with
       | [] => ret tt
       | node_from_source :: rest =>
           (node_from_destination <- search_destination found_node name_eq node_from_source ;;
            pack cwd fs_parent found_node name_eq node_from_source node_from_destination) ;;
           each rest
       end) nodes self)) = source self).
  intros self nodes. revert self.
  induction nodes as [| n nodes IH]; intros self; [reflexivity |].
  apply (keeps_source_bind _ (fun _ => _)); [| intros _ ?; apply IH].
  apply keeps_source_bind; [apply keeps_source_search |].
  intros found. apply keeps_source_pack.
Qed.

End Frame.

(** C9.  Every method of the packer ends with the source store it was
    started with: [pack], [pack_all], the override, merge and replace
    actions, and the two methods through which every change goes,
    [add_node] and [remove_node] of the packer, which call the destination
    store. *)
Theorem source_store_unchanged (cwd : list string)
    (fs_parent : FileSystemNode -> FileSystemNode)
    (found_node : TreeNode -> position -> Result FileSystemNode)
    (name_eq : string -> FileSystemNode -> bool)
    (src dst : FileSystemNode) (found : option FileSystemNode) (self : Packer) :
  source (fst (pack cwd fs_parent found_node name_eq src found self)) = source self /\
  source (fst (pack_all cwd fs_parent found_node name_eq self)) = source self /\
  source (fst (override_node cwd fs_parent found_node name_eq src dst self)) = source self /\
  source (fst (override_directory cwd fs_parent found_node name_eq src dst self)) = source self /\
  source (fst (merge_node cwd fs_parent found_node name_eq src dst self)) = source self /\
  source (fst (merge_directory cwd fs_parent found_node name_eq src dst self)) = source self /\
  source (fst (replace_node cwd fs_parent src dst self)) = source self /\
  source (fst (replace_directory cwd fs_parent src dst self)) = source self /\
  source (fst (packer_add_node cwd src dst self)) = source self /\
  source (fst (packer_remove_node cwd dst self)) = source self.
Proof.
  repeat split.
  - apply keeps_source_pack.
  - apply keeps_source_pack_all.
  - unfold override_node, override_node_with. destruct src as [p s | p s es].
    + apply keeps_source_replace_node.
    + destruct (is_directory dst).
      * apply keeps_source_for_each_child, Forall_forall.
        intros c _ d. apply keeps_source_pack.
      * apply (keeps_source_replace_node _ _ (Directory p s es)).
  - apply keeps_source_for_each_child, Forall_forall.
    intros c _ d. apply keeps_source_pack.
  - apply keeps_source_merge_node.
  - apply keeps_source_for_each_child, Forall_forall.
    intros c _ d. apply keeps_source_merge_node.
  - apply keeps_source_replace_node.
  - apply keeps_source_replace_directory.
  - apply keeps_source_add_node.
  - apply keeps_source_remove_node.
Qed.

(** ** Override and merge *)

Section OverrideMerge.

Variable cwd : list string.
Variable fs_parent : FileSystemNode -> FileSystemNode.
Variable found_node : TreeNode -> position -> Result FileSystemNode.
Variable name_eq : string -> FileSystemNode -> bool.

Lemma same_outcome_ret {A} (a : A) : same_outcome (ret a) (ret a).
Proof. intros o m H. split; [exact H | reflexivity]. Qed.

Lemma same_outcome_bind {A B} (mo mm : Run A) (ko km : A -> Run B) :
  same_outcome mo mm -> (forall a, same_outcome (ko a) (km a)) ->
  same_outcome (bind mo ko) (bind mm km).
Proof.
  intros Hm Hk o m H. unfold bind. destruct (Hm o m H) as [H' Hr].
  destruct (mo o) as [o' ro], (mm m) as [m' rm]. simpl in *. subst rm.
  destruct ro as [a | e]; [by apply Hk | by split].
Qed.

(** A method that reads the destination store and no policy flag, and
    writes the destination store only. *)
Lemma same_outcome_on_destination {A}
    (f : FileSystemNodeTree -> option FileSystemNodeTree * Result A)
    (run : Run A) :
  (forall self, run self =
     (match fst (f (destination self)) with
      | Some d => with_destination self d
      | None => self
      end, snd (f (destination self)))) ->
  same_outcome run run.
Proof.
  intros Hrun o m (Hs & Hd & Ho & Hm & Hmm). rewrite (Hrun o), (Hrun m), Hd.
  split; [| reflexivity]. simpl.
  destruct (fst (f (destination m))); by repeat split.
Qed.

Lemma same_outcome_add_node node parent :
  same_outcome (packer_add_node cwd node parent) (packer_add_node cwd node parent).
Proof.
  apply (same_outcome_on_destination
           (fun d => match add_node cwd d (fs_path parent) node with
                     | Ok d' => (Some d', Ok tt)
                     | Raise e => (None, Raise e)
                     end)).
  intros self. unfold packer_add_node.
  by destruct (add_node cwd (destination self) (fs_path parent) node).
Qed.

Lemma same_outcome_remove_node node :
  same_outcome (packer_remove_node cwd node) (packer_remove_node cwd node).
Proof.
  apply (same_outcome_on_destination
           (fun d => match remove_node cwd d (fs_path node) with
                     | Ok d' => (Some d', Ok tt)
                     | Raise e => (None, Raise e)
                     end)).
  intros self. unfold packer_remove_node.
  by destruct (remove_node cwd (destination self) (fs_path node)).
Qed.

Lemma same_outcome_search node :
  same_outcome (search_destination found_node name_eq node)
               (search_destination found_node name_eq node).
Proof.
  apply (same_outcome_on_destination
           (fun d => (None,
              match search_node_by_name name_eq d node, root_tree_node d with
              | Ok (Some pos), Some root =>
                  match found_node root pos with
                  | Ok e => Ok (Some e)
                  | Raise e => Raise e
                  end
              | Ok _, _ => Ok None
              | Raise e, _ => Raise e
              end))).
  intros self. unfold search_destination. simpl.
  destruct (search_node_by_name name_eq (destination self) node) as [[pos |] |];
    try reflexivity.
  destruct (root_tree_node (destination self)) as [root |]; [| reflexivity].
  by destruct (found_node root pos).
Qed.

Lemma same_outcome_replace_node src dst :
  same_outcome (replace_node cwd fs_parent src dst)
               (replace_node cwd fs_parent src dst).
Proof.
  unfold replace_node, replace_directory.
  destruct (is_directory src), (is_directory dst);
    try apply same_outcome_add_node.
  apply same_outcome_bind; [apply same_outcome_remove_node |].
  intros _. apply same_outcome_add_node.
Qed.

Lemma same_outcome_for_each_child recur_o recur_m dst entries :
  Forall (fun c => forall d, same_outcome (recur_o c d) (recur_m c d)) entries ->
  same_outcome (for_each_child cwd found_node name_eq recur_o dst entries)
               (for_each_child cwd found_node name_eq recur_m dst entries).
Proof.
  induction 1 as [| c cs Hc _ IH]; simpl; [apply same_outcome_ret |].
  destruct (is_hidden c); [exact IH |].
  apply same_outcome_bind; [| intros _; exact IH].
  apply same_outcome_bind; [apply same_outcome_search |].
  intros [d |]; [apply Hc | apply same_outcome_add_node].
Qed.

(** The dispatch of [pack] under the override policy against the merge
    action. *)
Lemma same_outcome_pack_merge src :
  forall d,
    same_outcome (pack cwd fs_parent found_node name_eq src (Some d))
                 (merge_node cwd fs_parent found_node name_eq src d).
Proof.
  induction src as [path size | path size entries IH] using FileSystemNode_nested_ind;
    intros d o m H; rewrite pack_unfold;
    destruct H as (Hs & Hd & Ho & Hm & Hmm); rewrite Ho.
  - by apply (same_outcome_replace_node (File path size) d).
  - simpl. destruct (is_directory d).
    + by apply same_outcome_for_each_child.
    + by apply (same_outcome_replace_node (Directory path size entries) d).
Qed.

Lemma same_outcome_pack src found :
  same_outcome (pack cwd fs_parent found_node name_eq src found)
               (pack cwd fs_parent found_node name_eq src found).
Proof.
  assert (Hfound : forall d,
    same_outcome (pack cwd fs_parent found_node name_eq src (Some d))
                 (pack cwd fs_parent found_node name_eq src (Some d))).
  { intros d o m H. rewrite (pack_unfold _ _ _ _ src d m).
    destruct H as (Hs & Hd & Ho & Hm & Hmm). rewrite Hm, Hmm.
    by apply same_outcome_pack_merge. }
  destruct found as [d |]; [apply Hfound |].
  rewrite pack_unfold_search.
  apply same_outcome_bind; [apply same_outcome_search |].
  intros [d |]; [apply Hfound | apply same_outcome_ret].
Qed.

End OverrideMerge.

(** C4.  For two directories and any state of the two stores, the packer
    run with the override policy and the packer run with the merge policy
    leave the same destination tree, and raise or return alike; this
    holds for [pack] on the pair, and for the override action against the
    merge action. *)
Theorem override_merge_equivalence (cwd : list string)
    (fs_parent : FileSystemNode -> FileSystemNode)
    (found_node : TreeNode -> position -> Result FileSystemNode)
    (name_eq : string -> FileSystemNode -> bool)
    (src_store dst_store : FileSystemNodeTree) (merge_flag : bool)
    (p_src p_dst : Path) (s_src s_dst : option Z)
    (src_entries dst_entries : list FileSystemNode) :
  let src := Directory p_src s_src src_entries in
  let dst := Directory p_dst s_dst dst_entries in
  let with_override := MkPacker src_store dst_store true merge_flag in
  let with_merge := MkPacker src_store dst_store false true in
  let after_pack_o := pack cwd fs_parent found_node name_eq src (Some dst) with_override in
  let after_pack_m := pack cwd fs_parent found_node name_eq src (Some dst) with_merge in
  let after_override := override_node cwd fs_parent found_node name_eq src dst with_override in
  let after_merge := merge_node cwd fs_parent found_node name_eq src dst with_merge in
  destination (fst after_pack_o) = destination (fst after_pack_m) /\
  snd after_pack_o = snd after_pack_m /\
  destination (fst after_override) = destination (fst after_merge) /\
  snd after_override = snd after_merge /\
  after_pack_o = after_override /\ after_pack_m = after_merge.
Proof.
  intros src dst with_override with_merge.
  assert (H : override_and_merge with_override with_merge) by by repeat split.
  intros after_pack_o after_pack_m after_override after_merge.
  assert (Ho : after_pack_o = after_override) by reflexivity.
  assert (Hm : after_pack_m = after_merge) by reflexivity.
  destruct (same_outcome_pack cwd fs_parent found_node name_eq src (Some dst) _ _ H)
    as [(_ & Hd & _) Hr].
  fold after_pack_o after_pack_m in Hd, Hr.
  repeat split; try assumption; by rewrite <- Ho, <- Hm.
Qed.

(** ** Export and import *)

(** *** Paths as strings *)

Lemma append_cons c s t : String c s +:+ t = String c (s +:+ t).
Proof. reflexivity. Qed.

Lemma append_empty_l t : "" +:+ t = t.
Proof. reflexivity. Qed.

Lemma append_empty_r s : s +:+ "" = s.
Proof.
  induction s as [| c s IH]; [reflexivity |].
  by rewrite append_cons, IH.
Qed.

Lemma append_assoc s t u : (s +:+ t) +:+ u = s +:+ (t +:+ u).
Proof.
  induction s as [| c s IH]; [reflexivity |].
  by rewrite !append_cons, IH.
Qed.

Lemma path_str_cons n rest : path_str (n :: rest) = String sep (n +:+ path_str rest).
Proof. reflexivity. Qed.

Lemma path_str_app pre names : path_str (pre ++ names) = path_str pre +:+ path_str names.
Proof.
  induction pre as [| n pre IH]; [reflexivity |].
  rewrite <- app_comm_cons, !path_str_cons, IH, append_cons.
  by rewrite append_assoc.
Qed.

Lemma path_str_snoc pre n : path_str (pre ++ [n]) = path_str pre +:+ String sep n.
Proof.
  rewrite path_str_app. f_equal. rewrite path_str_cons.
  change (path_str []) with "". by rewrite append_empty_r.
Qed.

Lemma good_name_spec n :
  good_name n = true <-> n <> "" /\ Str.mem sep n = false.
Proof.
  unfold good_name. rewrite andb_true_iff, !negb_true_iff, String.eqb_neq.
  reflexivity.
Qed.

Lemma rstrip_no_sep s : Str.mem sep s = false -> Str.rstrip sep s = s.
Proof.
  induction s as [| c s IH]; simpl; [reflexivity |].
  intros H. apply orb_false_iff in H as [Hc Hs]. rewrite (IH Hs), Hc.
  by destruct s.
Qed.

Lemma rstrip_app s t :
  t <> "" -> Str.rstrip sep t = t -> Str.rstrip sep (s +:+ t) = s +:+ t.
Proof.
  intros Ht Hr. induction s as [| c s IH]; [exact Hr |].
  rewrite append_cons. simpl. rewrite IH.
  destruct (s +:+ t) eqn:E; [| reflexivity].
  destruct s; [rewrite append_empty_l in E; congruence | discriminate].
Qed.

Lemma split_no_sep s : Str.mem sep s = false -> Str.split sep s = [s].
Proof.
  induction s as [| c s IH]; simpl; [reflexivity |].
  intros H. apply orb_false_iff in H as [Hc Hs]. by rewrite Hc, (IH Hs).
Qed.

Lemma split_app s t :
  Str.mem sep s = false ->
  Str.split sep (s +:+ String sep t) = s :: Str.split sep t.
Proof.
  induction s as [| c s IH].
  - intros _. rewrite append_empty_l. simpl. by rewrite ?Ascii.eqb_refl.
  - intros H. simpl in H. apply orb_false_iff in H as [Hc Hs].
    rewrite append_cons. simpl. by rewrite Hc, (IH Hs).
Qed.

Lemma lstrip_good n t :
  good_name n = true -> Str.lstrip sep (String sep (n +:+ t)) = n +:+ t.
Proof.
  intros [Hne Hmem]%good_name_spec. simpl. rewrite ?Ascii.eqb_refl.
  destruct n as [| c n]; [congruence |]. simpl in Hmem.
  apply orb_false_iff in Hmem as [Hc _]. rewrite append_cons. simpl. by rewrite Hc.
Qed.

(** The names joined by the separator, without the leading one. *)
Lemma joined_names n rest :
  good_name n = true -> Forall (fun m => good_name m = true) rest ->
  n +:+ path_str rest <> "" /\
  Str.rstrip sep (n +:+ path_str rest) = n +:+ path_str rest /\
  Str.split sep (n +:+ path_str rest) = n :: rest.
Proof.
  intros Hn Hrest. revert n Hn.
  induction Hrest as [| m rest Hm _ IH]; intros n Hn;
    pose proof Hn as [Hne Hmem]%good_name_spec.
  - change (path_str []) with "". rewrite append_empty_r. split; [exact Hne |].
    split; [by apply rstrip_no_sep | by apply split_no_sep].
  - destruct (IH m Hm) as (Hne' & Hr & Hs). rewrite path_str_cons.
    assert (Htail : Str.rstrip sep (String sep (m +:+ path_str rest))
                    = String sep (m +:+ path_str rest)).
    { apply (rstrip_app (String sep "") _ Hne' Hr). }
    split; [| split].
    + destruct n; [congruence | discriminate].
    + by apply rstrip_app.
    + rewrite split_app by exact Hmem. by rewrite Hs.
Qed.

Lemma branch_of_path_str n rest :
  good_name n = true -> Forall (fun m => good_name m = true) rest ->
  branch_of (path_str (n :: rest)) = n :: rest.
Proof.
  intros Hn Hrest. unfold branch_of. rewrite path_str_cons.
  rewrite lstrip_good by exact Hn.
  destruct (joined_names n rest Hn Hrest) as (_ & -> & ->). reflexivity.
Qed.

(** *** Names and paths of a well-named tree *)

Lemma distinct_names_NoDup ns : distinct_names ns = true <-> NoDup ns.
Proof.
  induction ns as [| n ns IH]; simpl.
  - split; [constructor | reflexivity].
  - rewrite andb_true_iff, negb_true_iff, IH, NoDup_cons.
    assert (H : existsb (String.eqb n) ns = false <-> n ∉ ns); [| by rewrite H].
    rewrite <- not_true_iff_false, existsb_exists. split.
    + intros Hno Hin. apply Hno. exists n. split; [by apply list_elem_of_In |].
      apply String.eqb_refl.
    + intros Hno (m & Hin & Heq). apply String.eqb_eq in Heq as <-.
      by apply Hno, list_elem_of_In.
Qed.

Lemma well_named_spec t :
  well_named t = true <->
  good_name (node_name t) = true /\
  NoDup (map node_name (children t)) /\
  Forall (fun c => well_named c = true) (children t).
Proof.
  destruct t as [n s k cs]. simpl.
  rewrite !andb_true_iff, distinct_names_NoDup, forallb_forall, Forall_forall.
  split.
  - intros [[Hg Hn] Hall]. split; [done |]. split; [done |].
    intros c Hc. by apply Hall, list_elem_of_In.
  - intros (Hg & Hn & Hall). split; [done |].
    intros c Hc. by apply Hall, list_elem_of_In.
Qed.

(** *** Growing a tree from the entries of another *)

Lemma last_cons_default {A} (r : list A) (m n : A) :
  List.last (m :: r) n = List.last r m.
Proof.
  revert m n. induction r as [| x r IH]; intros m n; [reflexivity |].
  change (List.last (m :: x :: r) n) with (List.last (x :: r) n).
  by rewrite (IH x n), (IH x m).
Qed.

Lemma first_named_fresh name (cs : list TreeNode) :
  name ∉ map node_name cs -> first_named name cs = None.
Proof.
  intros H. apply first_named_None, Forall_forall. intros c Hc Heq.
  apply H. subst name. by apply list_elem_of_fmap_2.
Qed.

Lemma first_named_last name done p :
  first_named name done = None -> node_name p = name ->
  first_named name (done ++ [p]) = Some (length done, p).
Proof.
  intros Hnone Hp. induction done as [| d done IH]; simpl in *.
  - subst name. by rewrite String.eqb_refl.
  - destruct (String.eqb (node_name d) name); [discriminate |].
    destruct (first_named name done) as [[i e] |]; [discriminate |].
    by rewrite IH.
Qed.

Lemma insert_last {A} (done : list A) (p q : A) :
  <[length done := q]> (done ++ [p]) = done ++ [q].
Proof. induction done as [| d done IH]; simpl; [reflexivity | by rewrite IH]. Qed.

Lemma grow_entry_nil n name :
  grow_entry n (Node name None None []) [] = Node n None None [].
Proof. reflexivity. Qed.

Lemma grow_entry_name n acc r :
  node_name acc = n -> node_name (grow_entry n acc r) = n.
Proof.
  intros Hn. destruct r as [| m r]; [reflexivity |].
  unfold grow_entry. simpl.
  by destruct (first_named m (children acc)) as [[i c] |].
Qed.

Lemma rel_paths_head t : exists rs, rel_paths t = [] :: rs.
Proof. destruct t. by eexists. Qed.

(** The entries of one child, imported after its elder siblings [done]:
    the first makes the child, the others grow it in place. *)
Lemma grow_into_last_child n m done rs :
  first_named m done = None ->
  forall p, node_name p = m ->
    fold_left (grow_entry n) (map (cons m) rs) (Node n None None (done ++ [p]))
    = Node n None None (done ++ [fold_left (grow_entry m) rs p]).
Proof.
  intros Hfresh. induction rs as [| r rs IH]; intros p Hp; [reflexivity |].
  simpl fold_left. rewrite <- (IH (grow_entry m p r)) by by apply grow_entry_name.
  f_equal. unfold grow_entry. cbn [grow children].
  rewrite (first_named_last m done p Hfresh Hp).
  unfold with_children. cbn [node_name node_size node_type].
  by rewrite insert_last, last_cons_default.
Qed.

Lemma grow_children n cs :
  Forall (fun c =>
            fold_left (grow_entry (node_name c)) (rel_paths c)
              (Node (node_name c) None None []) = names_only c) cs ->
  forall done,
    NoDup (map node_name done ++ map node_name cs) ->
    fold_left (grow_entry n)
      (flat_map (fun c => map (cons (node_name c)) (rel_paths c)) cs)
      (Node n None None done)
    = Node n None None (done ++ map names_only cs).
Proof.
  induction 1 as [| c cs Hc _ IH]; intros done Hnd; simpl.
  - by rewrite app_nil_r.
  - apply NoDup_app in Hnd as Hparts. destruct Hparts as (_ & Hdisj & _).
    assert (Hfresh : first_named (node_name c) done = None).
    { apply first_named_fresh. intros Hin. apply (Hdisj _ Hin). left. }
    rewrite fold_left_app.
    destruct (rel_paths_head c) as [rs Hrs]. rewrite Hrs in Hc |- *.
    simpl in Hc. rewrite grow_entry_nil in Hc. simpl map. simpl fold_left.
    assert (Hfirst : grow_entry n (Node n None None done) [node_name c]
                     = Node n None None (done ++ [Node (node_name c) None None []])).
    { unfold grow_entry. simpl. by rewrite Hfresh. }
    rewrite Hfirst, (grow_into_last_child n (node_name c) done rs Hfresh) by reflexivity.
    rewrite Hc, IH.
    + by rewrite <- app_assoc.
    + rewrite map_app. simpl. rewrite <- app_assoc.
      destruct c; exact Hnd.
Qed.

Lemma grow_from_entries t :
  well_named t = true ->
  fold_left (grow_entry (node_name t)) (rel_paths t) (Node (node_name t) None None [])
  = names_only t.
Proof.
  induction t as [n s k cs IH] using TreeNode_nested_ind.
  intros (_ & Hnd & Hcs)%well_named_spec. simpl in *.
  rewrite grow_entry_nil. apply (grow_children n cs); [| exact Hnd].
  apply Forall_forall. intros c Hc.
  rewrite Forall_forall in IH, Hcs. by apply IH, Hcs.
Qed.

(** *** The dictionary of a tree *)

Lemma entry_of_cons above n m r :
  entry_of above n (m :: r) = entry_of (above ++ [n]) m r.
Proof.
  unfold entry_of. by rewrite <- app_assoc, last_cons_default.
Qed.

Lemma recursive_append_entries node :
  forall above d,
    _recursive_append (path_str above) node d
    = fold_left (fun d e => dict_set (fst e) (snd e) d)
        (map (entry_of above (node_name node)) (rel_paths node)) d.
Proof.
  induction node as [n s k cs IH] using TreeNode_nested_ind. intros above d.
  cbn [_recursive_append rel_paths node_name children map fold_left].
  rewrite <- path_str_snoc.
  change (entry_of above n []) with (path_str (above ++ [n]), [("name", n)]).
  cbn [fst snd].
  assert (Hinner : forall d' : Dict Attrs,
    fold_left (fun d child => _recursive_append (path_str (above ++ [n])) child d) cs d'
    = fold_left (fun d e => dict_set (fst e) (snd e) d)
        (map (entry_of above n)
           (flat_map (fun c => map (cons (node_name c)) (rel_paths c)) cs)) d').
  { induction IH as [| c cs Hc _ IHcs]; intros d'; [reflexivity |].
    cbn [fold_left flat_map]. rewrite map_app, fold_left_app, IHcs. f_equal.
    rewrite Hc, map_map. f_equal. apply map_ext. intros r. by rewrite entry_of_cons. }
  apply Hinner.
Qed.

Lemma dict_set_fresh {V} k (v : V) d :
  k ∉ map fst d -> dict_set k v d = d ++ [(k, v)].
Proof.
  induction d as [| [k' v'] d IH]; simpl; [reflexivity |].
  intros H. apply not_elem_of_cons in H as [Hne Hin].
  destruct (String.eqb k' k) eqn:E.
  - apply String.eqb_eq in E. congruence.
  - by rewrite IH.
Qed.

Lemma fold_dict_set {V} (entries d : Dict V) :
  NoDup (map fst d ++ map fst entries) ->
  fold_left (fun d e => dict_set (fst e) (snd e) d) entries d = d ++ entries.
Proof.
  revert d. induction entries as [| [k v] entries IH]; intros d Hnd; simpl.
  - by rewrite app_nil_r.
  - apply NoDup_app in Hnd as Hparts. destruct Hparts as (_ & Hdisj & _).
    rewrite dict_set_fresh.
    + rewrite IH; [by rewrite <- app_assoc |].
      rewrite map_app. simpl. by rewrite <- app_assoc.
    + intros Hin. apply (Hdisj _ Hin). left.
Qed.

Lemma rel_paths_good t :
  well_named t = true ->
  Forall (Forall (fun m => good_name m = true)) (rel_paths t).
Proof.
  induction t as [n s k cs IH] using TreeNode_nested_ind.
  intros (_ & _ & Hcs)%well_named_spec. simpl in *.
  constructor; [constructor |].
  apply Forall_flat_map. rewrite Forall_forall in IH, Hcs |- *.
  intros c Hc. apply Forall_fmap, Forall_forall. intros r Hr. simpl.
  constructor.
  - by apply well_named_spec, Hcs.
  - specialize (IH c Hc (Hcs c Hc)). rewrite Forall_forall in IH. by apply IH.
Qed.

Lemma rel_paths_NoDup t : well_named t = true -> NoDup (rel_paths t).
Proof.
  induction t as [n s k cs IH] using TreeNode_nested_ind.
  intros (_ & Hnd & Hcs)%well_named_spec. simpl in *.
  apply NoDup_cons. split.
  - intros Hin. apply list_elem_of_In, in_flat_map in Hin as (c & _ & Hin).
    apply in_map_iff in Hin as (r & Hr & _). discriminate.
  - induction cs as [| c cs IHcs]; simpl; [constructor |].
    apply Forall_cons in IH as [IHc IHrest].
    apply Forall_cons in Hcs as [Hc Hrest].
    apply NoDup_cons in Hnd as [Hc_fresh Hnd].
    apply NoDup_app. split; [| split].
    + apply (NoDup_fmap_2 _). by apply IHc.
    + intros x Hx Hx'. apply list_elem_of_fmap in Hx as (r & -> & _).
      apply list_elem_of_In, in_flat_map in Hx' as (c' & Hc' & Hin).
      apply in_map_iff in Hin as (r' & [= Heq _] & _).
      apply Hc_fresh. rewrite <- Heq. apply list_elem_of_fmap_2.
      by apply list_elem_of_In.
    + by apply IHcs.
Qed.

Lemma entry_keys_NoDup t :
  well_named t = true ->
  NoDup (map fst (map (entry_of [] (node_name t)) (rel_paths t))).
Proof.
  intros Ht. rewrite map_map.
  pose proof (rel_paths_good t Ht) as Hgood. rewrite Forall_forall in Hgood.
  assert (Hn : good_name (node_name t) = true) by by apply well_named_spec.
  apply NoDup_fmap_2_strong; [| by apply rel_paths_NoDup].
  intros r r' Hr Hr' Heq. unfold entry_of in Heq. cbn [fst app] in Heq.
  apply (f_equal branch_of) in Heq.
  rewrite !branch_of_path_str in Heq by auto. by injection Heq.
Qed.

Lemma tree_to_dict_entries t :
  well_named t = true ->
  bigtree_tree_to_dict t = map (entry_of [] (node_name t)) (rel_paths t).
Proof.
  intros Ht. unfold bigtree_tree_to_dict.
  etransitivity; [exact (recursive_append_entries t [] []) |].
  apply (fold_dict_set _ []). by apply entry_keys_NoDup.
Qed.

(** *** The tree of a dictionary *)

Lemma add_path_to_tree_nonempty root c s attrs :
  add_path_to_tree root (String c s) attrs
  = match branch_of (String c s) with
    | name :: rest =>
        if String.eqb name (node_name root) then Ok (grow root rest attrs)
        else Raise TreeError
    | [] => Raise ValueError
    end.
Proof. reflexivity. Qed.

Lemma add_entry n acc r :
  good_name n = true -> Forall (fun m => good_name m = true) r ->
  node_name acc = n ->
  add_path_to_tree acc (fst (entry_of [] n r)) (snd (entry_of [] n r))
  = Ok (grow_entry n acc r).
Proof.
  intros Hn Hr Hacc. unfold entry_of. cbn [fst snd app].
  rewrite path_str_cons, add_path_to_tree_nonempty, <- path_str_cons.
  by rewrite (branch_of_path_str n r Hn Hr), Hacc, String.eqb_refl.
Qed.

Lemma import_entries n rs :
  good_name n = true ->
  Forall (Forall (fun m => good_name m = true)) rs ->
  forall acc, node_name acc = n ->
    fold_left
      (fun acc entry =>
         match acc with
         | Ok root => add_path_to_tree root (fst entry) (snd entry)
         | Raise e => Raise e
         end)
      (map (entry_of [] n) rs) (Ok acc)
    = Ok (fold_left (grow_entry n) rs acc).
Proof.
  intros Hn. induction 1 as [| r rs Hr _ IH]; intros acc Hacc; [reflexivity |].
  cbn [map fold_left]. rewrite (add_entry n acc r Hn Hr Hacc).
  apply IH. by apply grow_entry_name.
Qed.

Lemma dict_to_tree_entries n rs :
  good_name n = true ->
  Forall (Forall (fun m => good_name m = true)) ([] :: rs) ->
  bigtree_dict_to_tree (map (entry_of [] n) ([] :: rs))
  = Ok (fold_left (grow_entry n) ([] :: rs) (Node n None None [])).
Proof.
  intros Hn Hgood. rewrite <- (import_entries n _ Hn Hgood) by reflexivity.
  cbn [map]. change (entry_of [] n []) with (path_str [n], [("name", n)]).
  generalize (map (entry_of [] n) rs) as rest. intros rest.
  unfold bigtree_dict_to_tree.
  by rewrite (branch_of_path_str n [] Hn) by constructor.
Qed.

Lemma dict_to_tree_of_tree_to_dict t :
  well_named t = true ->
  bigtree_dict_to_tree (bigtree_tree_to_dict t) = Ok (names_only t).
Proof.
  intros Ht. rewrite (tree_to_dict_entries t Ht).
  assert (Hn : good_name (node_name t) = true) by by apply well_named_spec.
  pose proof (rel_paths_good t Ht) as Hgood.
  pose proof (grow_from_entries t Ht) as Hgrow.
  destruct (rel_paths_head t) as [rs Hrs]. rewrite Hrs in *.
  by rewrite (dict_to_tree_entries _ rs Hn Hgood), Hgrow.
Qed.

(** *** Built stores *)

Lemma mirror_name e : node_name (mirror e) = fs_name e.
Proof. by destruct e. Qed.

Lemma mirror_children entries :
  flat_map (fun c => if is_hidden c then [] else [mirror c]) entries
  = map mirror (visible entries).
Proof.
  induction entries as [| c cs IH]; [reflexivity |].
  unfold visible in *. simpl. destruct (is_hidden c); simpl; by rewrite IH.
Qed.

Lemma mirror_file c : is_directory c = false -> mirror c = create_node c.
Proof. by destruct c. Qed.

Lemma first_named_fresh_inv name (cs : list TreeNode) :
  first_named name cs = None -> name ∉ map node_name cs.
Proof.
  intros Hf Hin. apply list_elem_of_fmap in Hin as (d & Hd & Hin).
  apply first_named_None in Hf. rewrite Forall_forall in Hf.
  by apply (Hf d Hin).
Qed.

Lemma with_children_eq t t' cs :
  with_children t' [] = with_children t [] -> with_children t' cs = with_children t cs.
Proof. unfold with_children. by intros [= -> -> ->]. Qed.

(** *** A build where every entity answers and the cache holds nothing *)

Section CalmBuild.

Variable w : World.
Hypothesis Hsize : forall e, get_size_raises w e = None.
Hypothesis Hiter : forall e, iter_raises w e = None.
Hypothesis Hcache : forall k, cache_hit w k = false.

Lemma build_children_mirror recur entries :
  Forall (fun c => is_hidden c = false -> is_directory c = true ->
                   forall k, exists k',
                     recur c (create_node c) k = (k', mirror c, None)) entries ->
  forall tree_node k,
    NoDup (map node_name (children tree_node) ++ map fs_name (visible entries)) ->
    Forall (fun c => fs_name c <> "") (visible entries) ->
    exists k',
      build_children w recur entries None tree_node k
      = (k', with_children tree_node
               (children tree_node ++ map mirror (visible entries)), None).
Proof.
  induction 1 as [| c cs Hc _ IH]; intros tree_node k Hnd Hnamed; simpl.
  - exists k. rewrite app_nil_r. by destruct tree_node.
  - unfold visible in *. simpl in *.
    destruct (is_hidden c) eqn:Hhid; simpl in *; [by apply IH |].
    apply NoDup_app in Hnd as Hparts. destruct Hparts as (_ & Hdisj & _).
    apply Forall_cons in Hnamed as [Hname Hnamed].
    unfold try_child, create_node_under. rewrite Hsize.
    rewrite first_named_fresh by (intros Hin; apply (Hdisj _ Hin); left).
    rewrite (proj2 (String.eqb_neq _ _) Hname).
    assert (Hnext : forall t', children t' = children tree_node ++ [mirror c] ->
              with_children t' [] = with_children tree_node [] ->
              forall k1, exists k',
                build_children w recur cs None t' k1
                = (k', with_children tree_node
                         (children tree_node ++ mirror c :: map mirror
                            (List.filter (fun c0 => negb (is_hidden c0)) cs)), None)).
    { intros t' Hch Hsame k1.
      destruct (IH t' k1) as [k' Hk']; [| exact Hnamed |].
      - rewrite Hch, map_app. simpl. by rewrite mirror_name, <- app_assoc.
      - exists k'. rewrite Hk', Hch, <- app_assoc. simpl.
        by rewrite (with_children_eq _ _ _ Hsame). }
    destruct (is_directory c) eqn:Hdir.
    + destruct (Hc eq_refl eq_refl k) as [k1 ->]. by apply Hnext.
    + rewrite <- (mirror_file c Hdir). by apply Hnext.
Qed.


Lemma build_children_inv recur entries :
  Forall (fun c => is_hidden c = false -> is_directory c = true ->
                   forall k k' t raised,
                     recur c (create_node c) k = (k', t, raised) ->
                     match raised with
                     | None => t = mirror c /\ visible_named c = true /\
                               visible_distinct c = true
                     | Some x => x = TreeError
                     end) entries ->
  forall tree_node k k' t raised,
    NoDup (map node_name (children tree_node)) ->
    build_children w recur entries None tree_node k = (k', t, raised) ->
    match raised with
    | None =>
        t = with_children tree_node
              (children tree_node ++ map mirror (visible entries)) /\
        NoDup (map node_name (children tree_node) ++ map fs_name (visible entries)) /\
        forallb (fun c => is_hidden c
                          || (negb (String.eqb (fs_name c) EmptyString)
                              && visible_named c))
          entries = true /\
        forallb (fun c => is_hidden c || visible_distinct c) entries = true
    | Some x => x = TreeError
    end.
Proof.
  induction 1 as [| c cs Hc _ IH]; intros tree_node k k' t raised Hnd; simpl.
  - intros [= <- <- <-]. rewrite !app_nil_r. by destruct tree_node.
  - unfold visible in *. simpl.
    destruct (is_hidden c) eqn:Hhid; simpl; [by apply IH |].
    unfold try_child, create_node_under. rewrite Hsize.
    destruct (first_named (fs_name c) (children tree_node)) as [[i d] |] eqn:Hf;
      [by intros [= <- <- <-] |].
    apply first_named_fresh_inv in Hf.
    destruct (String.eqb (fs_name c) EmptyString) eqn:Hname;
      [by intros [= <- <- <-] |].
    assert (Hnext : forall t' k1,
              children t' = children tree_node ++ [mirror c] ->
              with_children t' [] = with_children tree_node [] ->
              visible_named c = true -> visible_distinct c = true ->
              build_children w recur cs None t' k1 = (k', t, raised) ->
              match raised with
              | None =>
                  t = with_children tree_node
                        (children tree_node ++ mirror c :: map mirror
                           (List.filter (fun c0 => negb (is_hidden c0)) cs)) /\
                  NoDup (map node_name (children tree_node) ++ fs_name c :: map fs_name
                           (List.filter (fun c0 => negb (is_hidden c0)) cs)) /\
                  true && visible_named c
                  && forallb (fun c0 => is_hidden c0
                                || (negb (String.eqb (fs_name c0) EmptyString)
                                    && visible_named c0)) cs = true /\
                  visible_distinct c
                  && forallb (fun c0 => is_hidden c0 || visible_distinct c0) cs = true
              | Some x => x = TreeError
              end).
    { intros t' k1 Hch Hsame Hvn Hvd Hb.
      apply IH in Hb.
      - destruct raised as [x |]; [exact Hb |].
        destruct Hb as (-> & Hnd' & Hnamed & Hdist).
        rewrite Hch, map_app in Hnd'. simpl in Hnd'.
        rewrite mirror_name, <- app_assoc in Hnd'.
        rewrite Hch, <- app_assoc, Hvn, Hvd, Hnamed, Hdist.
        by rewrite (with_children_eq _ _ _ Hsame).
      - rewrite Hch, map_app. simpl. rewrite mirror_name.
        apply NoDup_app. split; [exact Hnd |]. split; [| apply NoDup_singleton].
        by intros x Hx ->%list_elem_of_singleton. }
    destruct (is_directory c) eqn:Hdir.
    + destruct (recur c (create_node c) k) as [[k1 tc] [x |]] eqn:Hr.
      * rewrite (Hc eq_refl eq_refl _ _ _ _ Hr). simpl. by intros [= <- <- <-].
      * destruct (Hc eq_refl eq_refl _ _ _ _ Hr) as (-> & Hvn & Hvd).
        by apply Hnext.
    + rewrite <- (mirror_file c Hdir). apply Hnext; try reflexivity; by destruct c.
Qed.

Lemma build_tree_recursive_mirror e :
  visible_named e = true -> visible_distinct e = true ->
  forall k, exists k', __build_tree_recursive w e (create_node e) k = (k', mirror e, None).
Proof.
  induction e as [path size | path size entries IH] using FileSystemNode_nested_ind;
    intros Hvn Hvd k; simpl; rewrite Hcache, Hiter; [by eexists |].
  simpl in Hvn, Hvd. apply andb_true_iff in Hvd as [Hnd Hall].
  rewrite forallb_forall in Hvn, Hall. rewrite mirror_children.
  apply (build_children_mirror _ entries).
  - rewrite Forall_forall in IH |- *. intros c Hc Hhid _.
    apply list_elem_of_In in Hc as Hin.
    specialize (Hvn c Hin). specialize (Hall c Hin).
    rewrite Hhid in Hvn, Hall. simpl in Hvn, Hall.
    apply andb_true_iff in Hvn as [_ Hvn]. by apply (IH c Hc).
  - by apply distinct_names_NoDup.
  - apply Forall_forall. intros c Hc.
    apply list_elem_of_In, filter_In in Hc as [Hin Hhid].
    specialize (Hvn c Hin). apply negb_true_iff in Hhid.
    rewrite Hhid in Hvn. simpl in Hvn.
    apply andb_true_iff in Hvn as [Hname _].
    apply negb_true_iff in Hname. by apply String.eqb_neq.
Qed.

Lemma build_tree_recursive_inv e :
  forall k k' t raised,
    __build_tree_recursive w e (create_node e) k = (k', t, raised) ->
    match raised with
    | None => t = mirror e /\ visible_named e = true /\ visible_distinct e = true
    | Some x => x = TreeError
    end.
Proof.
  induction e as [path size | path size entries IH] using FileSystemNode_nested_ind;
    intros k k' t raised; simpl; rewrite Hcache, Hiter.
  - by intros [= <- <- <-].
  - intros Hb. rewrite mirror_children.
    apply (build_children_inv _ entries) in Hb; [| | constructor].
    + destruct raised as [x |]; [exact Hb |].
      destruct Hb as (-> & Hnd & Hnamed & Hdist).
      split; [reflexivity |]. split; [exact Hnamed |].
      apply andb_true_iff. split; [| exact Hdist].
      by apply distinct_names_NoDup.
    + eapply Forall_impl; [exact IH |]. intros c Hc _ _. exact Hc.
Qed.

Lemma build_in_inv self :
  forall self' raised,
    build_in w self = (self', raised) ->
    match raised with
    | None => self' = with_root_tree_node self (mirror (root_node self)) /\
              buildable (root_node self) = true
    | Some x => x = TreeError
    end.
Proof.
  intros self' raised. unfold build_in, __build_tree, buildable. rewrite Hsize.
  destruct (String.eqb (fs_name (root_node self)) EmptyString);
    [by intros [= <- <-] |].
  destruct (__build_tree_recursive w (root_node self) (create_node (root_node self)) 0)
    as [[k' t] r] eqn:Hb.
  intros [= <- <-]. apply build_tree_recursive_inv in Hb.
  destruct r as [x |]; [exact Hb |].
  by destruct Hb as (-> & -> & ->).
Qed.

End CalmBuild.

(** *** [build] *)

Lemma build_Ok self self' :
  build self = Ok self' <-> build_in quiet self = (self', None).
Proof.
  unfold build. destruct (build_in quiet self) as [s [x |]]; split; congruence.
Qed.

Lemma build_inv self self' :
  build self = Ok self' ->
  self' = with_root_tree_node self (mirror (root_node self)) /\
  buildable (root_node self) = true.
Proof.
  intros Hb%build_Ok. by apply (build_in_inv quiet) in Hb.
Qed.

Lemma mirror_well_named e :
  entity_well_named e = true -> visible_distinct e = true ->
  well_named (mirror e) = true.
Proof.
  induction e as [path size | path size entries IH] using FileSystemNode_nested_ind;
    intros Hwn Hvd; simpl in Hwn; apply andb_true_iff in Hwn as [Hname Hentries];
    apply well_named_spec.
  - simpl. split; [exact Hname |]. split; constructor.
  - simpl in Hvd. apply andb_true_iff in Hvd as [Hnd Hall].
    simpl. rewrite mirror_children. split; [exact Hname |]. split.
    + rewrite map_map. apply distinct_names_NoDup in Hnd.
      erewrite map_ext; [exact Hnd |]. intros c. apply mirror_name.
    + rewrite forallb_forall in Hentries, Hall.
      rewrite Forall_forall in IH. rewrite Forall_forall. intros t Ht.
      apply list_elem_of_fmap in Ht as (c & -> & Hc).
      apply list_elem_of_In, filter_In in Hc as [Hin Hhid].
      apply negb_true_iff in Hhid.
      specialize (Hentries c Hin). specialize (Hall c Hin).
      rewrite Hhid in Hentries, Hall. apply IH; [by apply list_elem_of_In | done | done].
Qed.

Lemma built_well_named root_entity self :
  entity_well_named root_entity = true ->
  build (MkTree root_entity None) = Ok self ->
  self = MkTree root_entity (Some (mirror root_entity)) /\
  well_named (mirror root_entity) = true.
Proof.
  intros Hwn [-> Hb]%build_inv. split; [reflexivity |].
  apply mirror_well_named; [exact Hwn |].
  unfold buildable in Hb. simpl in Hb. by apply andb_true_iff in Hb as [_ Hb].
Qed.

Lemma node_at_names_only t pos :
  node_at (names_only t) pos = names_only <$> node_at t pos.
Proof.
  revert t. induction pos as [| i pos IH]; intros [n s k cs]; [reflexivity |].
  cbn [names_only node_at children]. rewrite list_lookup_fmap.
  destruct (cs !! i) as [c |]; [apply IH | reflexivity].
Qed.

(** C1, as amended.  For the store built from a directory whose entries
    have proper names, the export succeeds and the import of the exported
    file yields the tree with, at every position, a node of the same name
    and with the same children in the same order as the original; the
    imported nodes have no size and no type, which the exported form does
    not hold. *)
Theorem export_import_keeps_names_and_order (now : Q) (root_entity : FileSystemNode)
    (self : FileSystemNodeTree) (file_path : string) (disk : Disk) :
  entity_well_named root_entity = true ->
  build (MkTree root_entity None) = Ok self ->
  exists root,
    root_tree_node self = Some root /\
    let exported := export now self file_path disk in
    snd exported = Ok tt /\
    snd (importer file_path (fst exported)) = Ok (names_only root) /\
    (forall pos, node_at (names_only root) pos = names_only <$> node_at root pos) /\
    (forall pos t, node_at (names_only root) pos = Some t ->
                   node_size t = None /\ node_type t = None).
Proof.
  intros Hwn Hbuild.
  destruct (built_well_named root_entity self Hwn Hbuild) as [-> Hroot].
  set (root := mirror root_entity) in *.
  exists root. split; [reflexivity |].
  unfold export, importer, tree_to_dict, dict_to_tree. simpl.
  rewrite lookup_insert_eq. simpl.
  split; [reflexivity |]. split; [by apply dict_to_tree_of_tree_to_dict |].
  split; [intros pos; apply node_at_names_only |].
  intros pos t. rewrite node_at_names_only.
  destruct (node_at root pos) as [[n s k cs] |]; [| discriminate].
  by intros [= <-].
Qed.

Lemma export_import_keeps_names_and_order_witness :
  entity_well_named dir_D = true /\
  build (MkTree dir_D None) = Ok store_D /\
  exists root,
    root_tree_node store_D = Some root /\
    let exported := export 0 store_D "D.json" ∅ in
    snd exported = Ok tt /\
    snd (importer "D.json" (fst exported)) = Ok (names_only root) /\
    (forall pos, node_at (names_only root) pos = names_only <$> node_at root pos) /\
    (forall pos t, node_at (names_only root) pos = Some t ->
                   node_size t = None /\ node_type t = None).
Proof.
  split; [reflexivity |]. split; [reflexivity |].
  apply (export_import_keeps_names_and_order 0 dir_D store_D "D.json" ∅);
    reflexivity.
Defined.

(** C1, as stated, fails on the store built from [/tmp/D]: the import of
    its export is not the tree that was exported.  The node [x.txt] has
    size 1 and the type of a file in the store, and neither after the
    import. *)
Lemma export_import_drops_size_and_type :
  let exported := export 0 store_D "D.json" ∅ in
  let imported := snd (importer "D.json" (fst exported)) in
  root_tree_node store_D = Some tree_D /\
  snd exported = Ok tt /\
  imported <> Ok tree_D /\
  imported = Ok (names_only tree_D) /\
  node_at tree_D [0; 0] = Some (Node "x.txt" (Some 1%Z) (Some KFile) []) /\
  node_at (names_only tree_D) [0; 0] = Some (Node "x.txt" None None []).
Proof. repeat split; try reflexivity. discriminate. Qed.

(** ** Instances of the statements with premises *)

Lemma check_saved_tree_age_gate_witness :
  let disk : Disk := {[ saved_path "D" := MkFile 5 NotJson ]} in
  disk !! saved_path "D" = Some (MkFile 5 NotJson) /\
  (0 < 7 - 5)%Q /\
  check_saved_tree 7 "D" (Some 0%Z) disk = false /\
  check_saved_tree 7 "D" None disk = true.
Proof.
  intros disk.
  destruct (check_saved_tree_age_gate 7 "D" disk) as (Hnone & _ & Hzero & _).
  split; [reflexivity |]. split; [reflexivity |]. split.
  - apply (Hzero (MkFile 5 NotJson)); reflexivity.
  - apply Hnone. by eexists.
Defined.

Lemma restore_not_found_iff_witness :
  (∅ : Disk) !! saved_path "D" = None /\
  snd (restore 0 "D" ∅) = Raise FileNotFoundError /\
  fst (restore 0 "D" ∅) = ∅.
Proof.
  destruct (restore_not_found_iff 0 "D" ∅) as [Hiff Hdisk].
  split; [reflexivity |]. split; [| exact Hdisk].
  apply Hiff. reflexivity.
Defined.

Lemma root_unreachable_by_path_witness :
  search_node_by_path [] (MkTree dir_D (Some tree_anchor)) (absolute ["a"])
  = Ok (Some [0; 0]) /\
  1 <= length [0; 0] /\ is_Some (parent_of [0; 0]).
Proof.
  split; [reflexivity |].
  exact (proj1 (root_unreachable_by_path [] (MkTree dir_D (Some tree_anchor)))
           (absolute ["a"])).
Defined.

(** ** Built stores and the search by path *)

Lemma good_name_not_anchor n : good_name n = true -> n <> "/".
Proof. intros [_ Hmem]%good_name_spec ->. discriminate. Qed.

Lemma well_named_no_anchor t :
  well_named t = true -> first_named "/" (children t) = None.
Proof.
  intros (_ & _ & Hcs)%well_named_spec.
  apply first_named_None. eapply Forall_impl; [exact Hcs |].
  intros c Hc. by apply good_name_not_anchor, well_named_spec.
Qed.

Lemma built_no_anchor_child root_entity self :
  entity_well_named root_entity = true ->
  build (MkTree root_entity None) = Ok self ->
  no_anchor_child self.
Proof.
  intros Hwn Hbuild.
  destruct (built_well_named root_entity self Hwn Hbuild) as [-> Hroot].
  exists (mirror root_entity). split; [reflexivity |].
  by apply well_named_no_anchor.
Qed.

(** In a store built from a directory the search by path finds no node,
    whatever the path, and [add_node] and [remove_node] raise. *)
Lemma built_store_search_by_path cwd root_entity self path :
  entity_well_named root_entity = true ->
  build (MkTree root_entity None) = Ok self ->
  search_node_by_path cwd self path = Ok None /\
  remove_node cwd self path = Raise ValueError /\
  (forall child_node, add_node cwd self path child_node = Raise ValueError).
Proof.
  intros Hwn Hbuild.
  destruct (built_no_anchor_child _ _ Hwn Hbuild) as (root & Hroot & Hnone).
  split; [by eapply search_node_by_path_anchor |].
  split; [by eapply remove_node_anchor |].
  intros child_node. by eapply add_node_anchor.
Qed.

Section Inert.

Variable cwd : list string.
Variable fs_parent : FileSystemNode -> FileSystemNode.
Variable found_node : TreeNode -> position -> Result FileSystemNode.
Variable name_eq : string -> FileSystemNode -> bool.

Lemma changes_nothing_ret {A} (a : A) : changes_nothing (ret a).
Proof. intros self _. reflexivity. Qed.

Lemma changes_nothing_bind {A B} (m : Run A) (k : A -> Run B) :
  changes_nothing m -> (forall a, changes_nothing (k a)) ->
  changes_nothing (bind m k).
Proof.
  intros Hm Hk self Hself. unfold bind. specialize (Hm self Hself).
  destruct (m self) as [self' [a | e]]; simpl in *; subst self'; [| reflexivity].
  by apply Hk.
Qed.

Lemma changes_nothing_add_node node parent :
  changes_nothing (packer_add_node cwd node parent).
Proof.
  intros self (root & Hroot & Hnone). unfold packer_add_node.
  by rewrite (add_node_anchor cwd _ root _ _ Hroot Hnone).
Qed.

Lemma changes_nothing_remove_node node :
  changes_nothing (packer_remove_node cwd node).
Proof.
  intros self (root & Hroot & Hnone). unfold packer_remove_node.
  by rewrite (remove_node_anchor cwd _ root _ Hroot Hnone).
Qed.

Lemma changes_nothing_search node :
  changes_nothing (search_destination found_node name_eq node).
Proof.
  intros self _. unfold search_destination.
  destruct (search_node_by_name name_eq (destination self) node) as [[pos |] |];
    try reflexivity.
  destruct (root_tree_node (destination self)) as [root |]; [| reflexivity].
  by destruct (found_node root pos).
Qed.

Lemma changes_nothing_replace_node src dst :
  changes_nothing (replace_node cwd fs_parent src dst).
Proof.
  unfold replace_node, replace_directory.
  destruct (is_directory src), (is_directory dst);
    try apply changes_nothing_add_node.
  apply changes_nothing_bind; [apply changes_nothing_remove_node |].
  intros _. apply changes_nothing_add_node.
Qed.

Lemma changes_nothing_for_each_child recur dst entries :
  Forall (fun c => forall d, changes_nothing (recur c d)) entries ->
  changes_nothing (for_each_child cwd found_node name_eq recur dst entries).
Proof.
  induction 1 as [| c cs Hc _ IH]; simpl; [apply changes_nothing_ret |].
  destruct (is_hidden c); [exact IH |].
  apply changes_nothing_bind; [| intros _; exact IH].
  apply changes_nothing_bind; [apply changes_nothing_search |].
  intros [d |]; [apply Hc | apply changes_nothing_add_node].
Qed.

Lemma changes_nothing_merge_node src :
  forall dst, changes_nothing (merge_node cwd fs_parent found_node name_eq src dst).
Proof.
  induction src as [path size | path size entries IH] using FileSystemNode_nested_ind;
    intros dst; simpl.
  - apply changes_nothing_replace_node.
  - destruct (is_directory dst).
    + by apply changes_nothing_for_each_child.
    + apply (changes_nothing_replace_node (Directory path size entries)).
Qed.

(** The packer changes no tree that was built from a directory: each
    change it attempts goes through the search by path. *)
Lemma changes_nothing_pack src :
  forall found, changes_nothing (pack cwd fs_parent found_node name_eq src found).
Proof.
  assert (Hfound : forall src d,
    changes_nothing (pack cwd fs_parent found_node name_eq src (Some d))).
  { clear src.
    induction src as [path size | path size entries IH] using FileSystemNode_nested_ind;
      intros d self Hself; rewrite pack_unfold.
    - destruct (override self); [| destruct (merge self)];
        by apply changes_nothing_replace_node.
    - destruct (override self); [| destruct (merge self)].
      + simpl. destruct (is_directory d).
        * by apply changes_nothing_for_each_child.
        * by apply (changes_nothing_replace_node (Directory path size entries)).
      + by apply changes_nothing_merge_node.
      + by apply changes_nothing_replace_node. }
  intros [d |]; [apply Hfound |].
  rewrite pack_unfold_search.
  apply changes_nothing_bind; [apply changes_nothing_search |].
  intros [d |]; [apply Hfound | apply changes_nothing_ret].
Qed.

End Inert.

(** ** The loops and the enumeration of entries *)

Lemma for_each_child_iter cwd found_node name_eq recur dst entries :
  for_each_child cwd found_node name_eq recur dst entries
  = for_each_child cwd found_node name_eq recur dst
      (List.filter (fun c => negb (is_hidden c)) entries).
Proof.
  induction entries as [| c cs IH]; [reflexivity |].
  simpl. destruct (is_hidden c) eqn:E; simpl; [exact IH |].
  by rewrite E, IH.
Qed.

Lemma override_directory_iter cwd fs_parent found_node name_eq src dst :
  override_directory cwd fs_parent found_node name_eq src dst
  = for_each_child cwd found_node name_eq
      (fun c d => pack cwd fs_parent found_node name_eq c (Some d)) dst (iter src).
Proof. apply for_each_child_iter. Qed.

Lemma merge_directory_iter cwd fs_parent found_node name_eq src dst :
  merge_directory cwd fs_parent found_node name_eq src dst
  = for_each_child cwd found_node name_eq (merge_node cwd fs_parent found_node name_eq) dst (iter src).
Proof. apply for_each_child_iter. Qed.

(** Where the search by path does find the destination directory and its
    parent, the replace action detaches the directory and attaches one
    childless node made from the source directory. *)
Example replace_directory_when_found cwd :
  let self := MkPacker store_S (MkTree dir_D (Some tree_anchor_A)) false false in
  let dst := Directory (absolute ["A"]) None [] in
  let after := replace_directory cwd parent_directory src_A dst self in
  snd after = Ok tt /\
  root_tree_node (destination (fst after))
  = Some (Node "r" None (Some KDirectory)
            [Node "/" None (Some KDirectory)
               [Node "A" None (Some KDirectory) []]]).
Proof. split; reflexivity. Qed.

(** * Further properties of the store and of the packer *)

(** ** What [build] builds *)

(** X1.  Where every entity gives its size and its type, every directory
    enumerates its entries and the cache answers no call, [build] returns
    exactly when the root entity has a name and, in every directory it
    walks, the entries that [iter] gives have names that are not empty and
    differ from one another.  The tree it then leaves in the store is the
    mirror of the root entity: a node for each visible entry, in the order
    of the enumeration, with the entry's name, size and type, hidden
    entries left out at every level.  Otherwise it raises [TreeError], and
    it raises nothing else; the store is then as it was when it is the
    root that has no name. *)
Theorem build_mirrors_the_entity (world : World) (self : FileSystemNodeTree) :
  (forall e, get_size_raises world e = None) ->
  (forall e, iter_raises world e = None) ->
  (forall k, cache_hit world k = false) ->
  (buildable (root_node self) = true ->
   build_in world self = (with_root_tree_node self (mirror (root_node self)), None)) /\
  (buildable (root_node self) = false ->
   snd (build_in world self) = Some TreeError /\
   (fs_name (root_node self) = EmptyString -> fst (build_in world self) = self)) /\
  (forall self', build_in world self = (self', None) ->
     self' = with_root_tree_node self (mirror (root_node self)) /\
     buildable (root_node self) = true).
Proof.
  intros Hsize Hiter Hcache.
  pose proof (build_in_inv world Hsize Hiter Hcache self) as Hinv.
  split; [| split].
  - unfold build_in, __build_tree, buildable. rewrite Hsize.
    intros [[Hname Hvn]%andb_true_iff Hvd]%andb_true_iff.
    apply negb_true_iff in Hname. rewrite Hname.
    by destruct (build_tree_recursive_mirror world Hsize Hiter Hcache _ Hvn Hvd 0)
      as [k' ->].
  - intros Hnot. split.
    + specialize (Hinv (fst (build_in world self)) (snd (build_in world self))).
      destruct (build_in world self) as [self' [x |]]; simpl in *.
      * f_equal. by apply Hinv.
      * destruct (Hinv eq_refl) as [_ Hyes]. congruence.
    + intros Hname. unfold build_in, __build_tree. rewrite Hsize, Hname. reflexivity.
  - intros self' Hb. exact (Hinv _ _ Hb).
Qed.

Lemma build_mirrors_the_entity_witness :
  buildable dir_D = true /\
  build_in quiet (MkTree dir_D None) = (MkTree dir_D (Some tree_D), None) /\
  build (MkTree dir_D None) = Ok (MkTree dir_D (Some tree_D)).
Proof.
  split; [reflexivity |]. split; [| reflexivity].
  exact (proj1 (build_mirrors_the_entity quiet (MkTree dir_D None)
                  (fun _ => eq_refl) (fun _ => eq_refl) (fun _ => eq_refl)) eq_refl).
Defined.

(** The root directory [/] has no name: [bigtree] refuses the root node,
    and the store stays without a tree. *)
Example build_refuses_a_root_without_name :
  let self := MkTree (Directory (absolute []) None [dst_B]) None in
  fs_name (root_node self) = EmptyString /\
  build_in quiet self = (self, Some TreeError) /\
  build self = Raise TreeError.
Proof. repeat split. Qed.

(** ** The search by name *)

Section FindByNameFacts.

Context {N : Type}.
Variable eq : string -> N -> bool.
Variable name : N.

Lemma _find_by_name_unfold node :
  _find_by_name eq node name
  = if eq (node_name node) name then Some []
    else find_among eq name 0 (children node).
Proof.
  destruct node as [n s k cs]. simpl.
  destruct (eq n name); [reflexivity |].
  generalize 0. induction cs as [| c cs IH]; intros i; simpl; [reflexivity |].
  destruct (_find_by_name eq c name); [reflexivity | apply IH].
Qed.

Lemma find_among_Some cs : forall i pos,
  find_among eq name i cs = Some pos ->
  exists k p c,
    pos = (i + k) :: p /\ cs !! k = Some c /\
    _find_by_name eq c name = Some p /\
    (forall k' c', k' < k -> cs !! k' = Some c' ->
                   _find_by_name eq c' name = None).
Proof.
  induction cs as [| d cs IH]; intros i pos; simpl; [discriminate |].
  destruct (_find_by_name eq d name) as [p |] eqn:Hd.
  - intros [= <-]. exists 0, p, d. rewrite Nat.add_0_r.
    repeat split; try done. intros k' c' Hk. lia.
  - intros H. apply IH in H as (k & p & c & -> & Hk & Hc & Hbefore).
    exists (S k), p, c. repeat split; try done.
    + f_equal. lia.
    + intros [| k'] c' Hlt; simpl; [by intros [= <-] |].
      apply Hbefore. lia.
Qed.

Lemma find_among_None cs : forall i,
  find_among eq name i cs = None ->
  forall k c, cs !! k = Some c -> _find_by_name eq c name = None.
Proof.
  induction cs as [| d cs IH]; intros i; simpl; [by intros _ k c |].
  destruct (_find_by_name eq d name) as [p |] eqn:Hd; [discriminate |].
  intros H [| k] c; simpl; [by intros [= <-] |]. by apply (IH (S i)).
Qed.

Lemma _find_by_name_sound node : forall pos,
  _find_by_name eq node name = Some pos ->
  exists n, node_at node pos = Some n /\ eq (node_name n) name = true.
Proof.
  induction node as [n s k cs IH] using TreeNode_nested_ind. intros pos.
  rewrite _find_by_name_unfold. simpl.
  destruct (eq n name) eqn:E.
  - intros [= <-]. by eexists.
  - intros H. apply find_among_Some in H as (j & p & c & -> & Hj & Hc & _).
    simpl. rewrite Hj. rewrite Forall_forall in IH.
    apply (IH c); [by eapply list_elem_of_lookup_2 | exact Hc].
Qed.

Lemma _find_by_name_first node : forall q n,
  node_at node q = Some n -> eq (node_name n) name = true ->
  exists pos, _find_by_name eq node name = Some pos /\ preorder_le pos q = true.
Proof.
  induction node as [m s k cs IH] using TreeNode_nested_ind. intros q n Hq Hn.
  rewrite _find_by_name_unfold. simpl.
  destruct (eq m name) eqn:E; [by eexists |].
  destruct q as [| j q]; simpl in Hq; [injection Hq as <-; simpl in Hn; congruence |].
  destruct (cs !! j) as [c |] eqn:Hj; [| discriminate].
  rewrite Forall_forall in IH.
  destruct (IH c (list_elem_of_lookup_2 _ _ _ Hj) q n Hq Hn) as (p & Hp & Hle).
  destruct (find_among eq name 0 cs) as [pos |] eqn:Hf.
  - exists pos. split; [reflexivity |].
    apply find_among_Some in Hf as (i & p' & c' & -> & Hi & Hc' & Hbefore).
    simpl. destruct (Nat.lt_trichotomy i j) as [Hlt | [-> | Hgt]].
    + apply Nat.ltb_lt in Hlt. by rewrite Hlt.
    + rewrite Nat.eqb_refl. simpl.
      assert (c' = c) as -> by congruence.
      assert (p' = p) as -> by congruence.
      rewrite Hle. apply orb_true_r.
    + rewrite (Hbefore j c Hgt Hj) in Hp. discriminate.
  - rewrite (find_among_None _ _ Hf j c Hj) in Hp. discriminate.
Qed.

End FindByNameFacts.

(** X2.  On a store with a tree, [search_node_by_name] returns the
    position of a node whose name compares equal to the argument, and of
    all such nodes the first in pre-order (a node before its children, the
    children in order); it returns [None] exactly when no node of the tree
    compares equal. *)
Theorem search_node_by_name_first_match {N : Type} (eq : string -> N -> bool)
    (self : FileSystemNodeTree) (name : N) (root : TreeNode) :
  root_tree_node self = Some root ->
  match search_node_by_name eq self name with
  | Ok (Some pos) =>
      (exists n, node_at root pos = Some n /\ eq (node_name n) name = true) /\
      (forall q n, node_at root q = Some n -> eq (node_name n) name = true ->
                   preorder_le pos q = true)
  | Ok None =>
      forall q n, node_at root q = Some n -> eq (node_name n) name = false
  | Raise _ => False
  end.
Proof.
  intros Hroot. unfold search_node_by_name. rewrite Hroot.
  destruct (_find_by_name eq root name) as [pos |] eqn:Hf.
  - split; [by apply _find_by_name_sound |].
    intros q n Hq Hn.
    destruct (_find_by_name_first eq name root q n Hq Hn) as (pos' & Hpos' & Hle).
    congruence.
  - intros q n Hq. destruct (eq (node_name n) name) eqn:Hn; [| reflexivity].
    destruct (_find_by_name_first eq name root q n Hq Hn) as (pos' & Hpos' & _).
    congruence.
Qed.

Lemma search_node_by_name_first_match_witness :
  root_tree_node store_D = Some tree_D /\
  (exists n, node_at tree_D [0; 0] = Some n /\ String.eqb (node_name n) "x.txt" = true) /\
  (forall q n, node_at tree_D q = Some n -> String.eqb (node_name n) "x.txt" = true ->
               preorder_le [0; 0] q = true).
Proof.
  split; [reflexivity |].
  exact (search_node_by_name_first_match String.eqb store_D "x.txt" tree_D eq_refl).
Defined.

(** ** The search by path *)

Lemma distinct_siblings_spec t :
  distinct_siblings t = true <->
  NoDup (map node_name (children t)) /\
  Forall (fun c => distinct_siblings c = true) (children t).
Proof.
  destruct t as [n s k cs]. simpl.
  rewrite andb_true_iff, distinct_names_NoDup, forallb_forall, Forall_forall.
  split; intros [Hnd Hall]; (split; [exact Hnd |]); intros c Hc;
    by apply Hall, list_elem_of_In.
Qed.

Lemma first_named_of_lookup cs : forall i c,
  NoDup (map node_name cs) -> cs !! i = Some c ->
  first_named (node_name c) cs = Some (i, c).
Proof.
  induction cs as [| d cs IH]; intros i c Hnd Hi; [discriminate |].
  simpl in Hnd. apply NoDup_cons in Hnd as [Hd Hnd].
  destruct i as [| i]; simpl in *.
  - injection Hi as ->. by rewrite String.eqb_refl.
  - destruct (String.eqb (node_name d) (node_name c)) eqn:E.
    + apply String.eqb_eq in E. exfalso. apply Hd. rewrite E.
      apply list_elem_of_fmap_2. by eapply list_elem_of_lookup_2.
    + by rewrite (IH i c Hnd Hi).
Qed.

Lemma descend_names_along parts : forall current pos p,
  descend current pos parts = Some p ->
  exists q, p = pos ++ q /\ names_along current q = Some parts.
Proof.
  induction parts as [| part rest IH]; intros current pos p; simpl.
  - intros [= <-]. exists []. by rewrite app_nil_r.
  - destruct (first_named part (children current)) as [[i child] |] eqn:E;
      [| discriminate].
    apply first_named_lookup in E as [Hi Hname].
    intros H. apply IH in H as (q & -> & Hq).
    exists (i :: q). split; [by rewrite <- app_assoc |].
    simpl. by rewrite Hi, Hq, Hname.
Qed.

Lemma names_along_descend q : forall current pos parts,
  distinct_siblings current = true ->
  names_along current q = Some parts ->
  descend current pos parts = Some (pos ++ q).
Proof.
  induction q as [| i q IH]; intros current pos parts Hds; simpl.
  - intros [= <-]. by rewrite app_nil_r.
  - apply distinct_siblings_spec in Hds as [Hnd Hall].
    destruct (children current !! i) as [c |] eqn:Hi; [| discriminate].
    destruct (names_along c q) as [rest |] eqn:Hq; [| discriminate].
    intros [= <-]. simpl.
    rewrite (first_named_of_lookup _ i c Hnd Hi).
    rewrite (IH c (pos ++ [i]) rest); [by rewrite <- app_assoc | | exact Hq].
    rewrite Forall_forall in Hall. apply Hall. by eapply list_elem_of_lookup_2.
Qed.

(** X3.  On a store with a tree, a position that [search_node_by_path]
    returns is the position of a node reached from the root through
    children whose names are, in order, the parts of the resolved path,
    the anchor included; and when no two siblings of the tree share a
    name, every position reached in that way is the one returned.  On a
    store that was not built the search raises [AttributeError]. *)
Theorem search_node_by_path_spells_parts (cwd : list string)
    (self : FileSystemNodeTree) (path : Path) (root : TreeNode) :
  root_tree_node self = Some root ->
  (forall pos, search_node_by_path cwd self path = Ok (Some pos) ->
               names_along root pos = Some (normalized_path cwd path) /\
               is_Some (node_at root pos)) /\
  (distinct_siblings root = true ->
   forall pos, names_along root pos = Some (normalized_path cwd path) ->
               search_node_by_path cwd self path = Ok (Some pos)) /\
  search_node_by_path cwd (MkTree (root_node self) None) path
  = Raise AttributeError.
Proof.
  intros Hroot. unfold search_node_by_path. rewrite Hroot.
  split; [| split; [| reflexivity]].
  - intros pos Hsome.
    assert (H : descend root [] (normalized_path cwd path) = Some pos)
      by congruence.
    split.
    + by apply descend_names_along in H as (q & -> & Hq).
    + by eapply (descend_node_at root root []).
  - intros Hds pos Hpos.
    by rewrite (names_along_descend pos root [] _ Hds Hpos).
Qed.

Lemma search_node_by_path_spells_parts_witness :
  root_tree_node (MkTree dir_D (Some tree_anchor)) = Some tree_anchor /\
  search_node_by_path [] (MkTree dir_D (Some tree_anchor)) (absolute ["a"])
  = Ok (Some [0; 0]) /\
  distinct_siblings tree_anchor = true /\
  names_along tree_anchor [0; 0] = Some ["/"; "a"].
Proof.
  split; [reflexivity |].
  split; [| split; reflexivity].
  apply (proj1 (proj2 (search_node_by_path_spells_parts []
           (MkTree dir_D (Some tree_anchor)) (absolute ["a"]) tree_anchor eq_refl)));
    reflexivity.
Defined.

(** ** Stores built from a directory *)

Lemma apply_ops_no_anchor cwd self ops :
  no_anchor_child self -> apply_ops cwd self ops = self.
Proof.
  intros (root & Hroot & Hnone). unfold apply_ops.
  induction ops as [| op ops IH]; [reflexivity |].
  simpl. replace (apply_op cwd self op) with self; [exact IH |].
  destruct op as [parent_path child_node | path]; simpl.
  - by rewrite (add_node_anchor cwd self root _ _ Hroot Hnone).
  - by rewrite (remove_node_anchor cwd self root _ Hroot Hnone).
Qed.

(** X4.  In a store built from a directory whose visible entries have
    proper names, whatever the working directory and the path,
    [search_node_by_path] answers [None], [remove_node] and [add_node]
    raise [ValueError], and so every sequence of [add_node] and
    [remove_node] calls leaves the store as it was built. *)
Theorem built_store_is_frozen (cwd : list string) (root_entity : FileSystemNode)
    (self : FileSystemNodeTree) :
  entity_well_named root_entity = true ->
  build (MkTree root_entity None) = Ok self ->
  (forall path,
     search_node_by_path cwd self path = Ok None /\
     remove_node cwd self path = Raise ValueError /\
     (forall child_node, add_node cwd self path child_node = Raise ValueError)) /\
  (forall ops, apply_ops cwd self ops = self).
Proof.
  intros Hwn Hbuild.
  pose proof (built_no_anchor_child _ _ Hwn Hbuild) as Hself.
  split; [| intros ops; by apply apply_ops_no_anchor].
  destruct Hself as (root & Hroot & Hnone). intros path.
  split; [by eapply search_node_by_path_anchor |].
  split; [by eapply remove_node_anchor |].
  intros child_node. by eapply add_node_anchor.
Qed.

Lemma built_store_is_frozen_witness :
  entity_well_named dir_D = true /\
  build (MkTree dir_D None) = Ok store_D /\
  search_node_by_path ["home"] store_D (relative ["B"]) = Ok None /\
  apply_ops ["home"] store_D [AddNode (absolute ["tmp"; "D"]) src_x] = store_D.
Proof.
  split; [reflexivity |]. split; [reflexivity |].
  destruct (built_store_is_frozen ["home"] dir_D store_D eq_refl eq_refl)
    as [Hpath Hops].
  split; [apply Hpath | apply Hops].
Defined.

Section InertAll.

Variable cwd : list string.
Variable fs_parent : FileSystemNode -> FileSystemNode.
Variable found_node : TreeNode -> position -> Result FileSystemNode.
Variable name_eq : string -> FileSystemNode -> bool.

Lemma changes_nothing_each_pack nodes :
  changes_nothing
    ((fix each (nodes : list FileSystemNode) : Run unit :=
        match nodes with
        | [] => ret tt
        | node_from_source :: rest =>
            (node_from_destination <- search_destination found_node name_eq node_from_source ;;
             pack cwd fs_parent found_node name_eq node_from_source node_from_destination) ;;
            each rest
        end) nodes).
Proof.
  induction nodes as [| n nodes IH]; [apply changes_nothing_ret |].
  apply (changes_nothing_bind _ (fun _ => _)); [| intros _; exact IH].
  apply changes_nothing_bind; [apply changes_nothing_search |].
  intros found. apply changes_nothing_pack.
Qed.

Lemma changes_nothing_pack_all :
  changes_nothing (pack_all cwd fs_parent found_node name_eq).
Proof. intros self Hself. unfold pack_all. by apply changes_nothing_each_pack. Qed.

Lemma changes_nothing_override_node src dst :
  changes_nothing (override_node cwd fs_parent found_node name_eq src dst).
Proof.
  unfold override_node, override_node_with. destruct src as [p s | p s es].
  - apply changes_nothing_replace_node.
  - destruct (is_directory dst).
    + apply changes_nothing_for_each_child, Forall_forall.
      intros c _ d. apply changes_nothing_pack.
    + apply (changes_nothing_replace_node _ _ (Directory p s es)).
Qed.

End InertAll.

(** X5.  With a destination store built from a directory whose visible
    entries have proper names, no method of the packer changes anything,
    whatever the policy, the source and the pair of nodes: [pack],
    [pack_all] and the override, merge and replace actions end with the
    packer and both its stores as they were. *)
Theorem packer_leaves_built_destination (cwd : list string)
    (fs_parent : FileSystemNode -> FileSystemNode)
    (found_node : TreeNode -> position -> Result FileSystemNode)
    (name_eq : string -> FileSystemNode -> bool)
    (root_entity src dst : FileSystemNode) (found : option FileSystemNode)
    (self : Packer) :
  entity_well_named root_entity = true ->
  build (MkTree root_entity None) = Ok (destination self) ->
  fst (pack cwd fs_parent found_node name_eq src found self) = self /\
  fst (pack_all cwd fs_parent found_node name_eq self) = self /\
  fst (override_node cwd fs_parent found_node name_eq src dst self) = self /\
  fst (merge_node cwd fs_parent found_node name_eq src dst self) = self /\
  fst (replace_node cwd fs_parent src dst self) = self.
Proof.
  intros Hwn Hbuild.
  pose proof (built_no_anchor_child _ _ Hwn Hbuild) as Hself.
  split; [by apply changes_nothing_pack |].
  split; [by apply changes_nothing_pack_all |].
  split; [by apply changes_nothing_override_node |].
  split; [by apply changes_nothing_merge_node | by apply changes_nothing_replace_node].
Qed.

Lemma packer_leaves_built_destination_witness :
  let self := MkPacker store_S store_D true false in
  entity_well_named dir_D = true /\
  build (MkTree dir_D None) = Ok (destination self) /\
  fst (pack_all [] parent_directory (fun _ _ => Raise AttributeError) same_name self)
  = self.
Proof.
  intros self. split; [reflexivity |]. split; [reflexivity |].
  exact (proj1 (proj2 (packer_leaves_built_destination [] parent_directory
           (fun _ _ => Raise AttributeError) same_name dir_D src_A dst_A None self
           eq_refl eq_refl))).
Defined.

(** ** Attaching and detaching at a position *)

Lemma node_at_app t p : forall q,
  node_at t (p ++ q) = node_at t p ≫= fun n => node_at n q.
Proof.
  revert t. induction p as [| i p IH]; intros t q; [reflexivity |].
  simpl. destruct (children t !! i) as [c |]; [apply IH | reflexivity].
Qed.

Lemma update_at_extends t pos f :
  (forall u, node_data (f u) = node_data u) ->
  (forall u j c, children u !! j = Some c -> children (f u) !! j = Some c) ->
  extends t (update_at t pos f).
Proof.
  intros Hdata Hkeep. revert t.
  induction pos as [| i rest IH]; intros t q n Hq.
  - simpl. destruct q as [| j q]; simpl in *.
    + injection Hq as <-. eauto.
    + destruct (children t !! j) as [c |] eqn:Hj; [| discriminate].
      rewrite (Hkeep t j c Hj). eauto.
  - simpl. destruct (children t !! i) as [c |] eqn:Hi; [| eauto].
    destruct q as [| j q]; simpl in *.
    + injection Hq as <-. eauto.
    + destruct (decide (j = i)) as [-> | Hne].
      * rewrite list_lookup_insert_eq by by eapply lookup_lt_Some.
        rewrite Hi in Hq. by apply IH.
      * rewrite list_lookup_insert_ne by done.
        destruct (children t !! j) as [d |]; [eauto | discriminate].
Qed.

Lemma with_last_child_extends root pos new :
  extends root (update_at root pos (with_last_child new)).
Proof.
  apply update_at_extends; [reflexivity |].
  intros u j c Hj. simpl. by apply lookup_app_l_Some.
Qed.

Lemma detach_snoc root parent_pos i :
  detach root (parent_pos ++ [i]) = update_at root parent_pos (without_child i).
Proof.
  unfold detach. rewrite removelast_last, last_last.
  by destruct parent_pos.
Qed.

Lemma search_node_by_path_found cwd self root path pos :
  root_tree_node self = Some root ->
  search_node_by_path cwd self path = Ok (Some pos) ->
  exists parent_pos i p n,
    pos = parent_pos ++ [i] /\ node_at root parent_pos = Some p /\
    children p !! i = Some n /\ node_at root pos = Some n.
Proof.
  intros Hroot Hsearch.
  destruct (search_node_by_path_below_root cwd self path pos Hsearch) as [Hlen _].
  unfold search_node_by_path in Hsearch. rewrite Hroot in Hsearch.
  assert (Hd : descend root [] (normalized_path cwd path) = Some pos) by congruence.
  destruct (descend_node_at root root [] _ pos eq_refl Hd) as [n Hn].
  destruct (exists_last (l := pos)) as (parent_pos & i & ->);
    [intros ->; simpl in Hlen; lia |].
  exists parent_pos, i. rewrite node_at_app in Hn.
  destruct (node_at root parent_pos) as [p |] eqn:Hp; [| discriminate].
  simpl in Hn. destruct (children p !! i) as [c |] eqn:Hi; [| discriminate].
  exists p, c. rewrite node_at_app, Hp. simpl. rewrite Hi. by injection Hn as ->.
Qed.

Lemma update_at_name t pos f :
  (forall u, node_name (f u) = node_name u) ->
  node_name (update_at t pos f) = node_name t.
Proof.
  intros Hf. destruct pos as [| i rest]; simpl; [apply Hf |].
  by destruct (children t !! i).
Qed.

(** ** What the packer keeps *)

Section Preserved.

Variable cwd : list string.
Variable fs_parent : FileSystemNode -> FileSystemNode.
Variable found_node : TreeNode -> position -> Result FileSystemNode.
Variable name_eq : string -> FileSystemNode -> bool.

Variable I : Packer -> Prop.
Hypothesis I_add_node :
  forall node parent, preserves I (packer_add_node cwd node parent).
Hypothesis I_remove_node :
  forall node, preserves I (packer_remove_node cwd node).

Lemma preserves_ret {A} (a : A) : preserves I (ret a).
Proof. by intros self. Qed.

Lemma preserves_bind {A B} (m : Run A) (k : A -> Run B) :
  preserves I m -> (forall a, preserves I (k a)) -> preserves I (bind m k).
Proof.
  intros Hm Hk self Hself. unfold bind. specialize (Hm self Hself).
  destruct (m self) as [self' [a | e]]; simpl in *; [by apply Hk | exact Hm].
Qed.

Lemma preserves_search node :
  preserves I (search_destination found_node name_eq node).
Proof.
  intros self Hself. unfold search_destination.
  destruct (search_node_by_name name_eq (destination self) node) as [[pos |] |];
    try exact Hself.
  destruct (root_tree_node (destination self)) as [root |]; [| exact Hself].
  by destruct (found_node root pos).
Qed.

Lemma preserves_replace_node src dst :
  preserves I (replace_node cwd fs_parent src dst).
Proof.
  unfold replace_node, replace_directory.
  destruct (is_directory src), (is_directory dst); try apply I_add_node.
  apply preserves_bind; [apply I_remove_node | intros _; apply I_add_node].
Qed.

Lemma preserves_for_each_child recur dst entries :
  Forall (fun c => forall d, preserves I (recur c d)) entries ->
  preserves I (for_each_child cwd found_node name_eq recur dst entries).
Proof.
  induction 1 as [| c cs Hc _ IH]; simpl; [apply preserves_ret |].
  destruct (is_hidden c); [exact IH |].
  apply preserves_bind; [| intros _; exact IH].
  apply preserves_bind; [apply preserves_search |].
  intros [d |]; [apply Hc | apply I_add_node].
Qed.

Lemma preserves_merge_node src :
  forall dst, preserves I (merge_node cwd fs_parent found_node name_eq src dst).
Proof.
  induction src as [path size | path size entries IH] using FileSystemNode_nested_ind;
    intros dst; simpl.
  - apply preserves_replace_node.
  - destruct (is_directory dst).
    + by apply preserves_for_each_child.
    + apply (preserves_replace_node (Directory path size entries)).
Qed.

Lemma preserves_pack src :
  forall found, preserves I (pack cwd fs_parent found_node name_eq src found).
Proof.
  assert (Hfound : forall src d,
    preserves I (pack cwd fs_parent found_node name_eq src (Some d))).
  { clear src.
    induction src as [path size | path size entries IH] using FileSystemNode_nested_ind;
      intros d self Hself; rewrite pack_unfold.
    - destruct (override self); [| destruct (merge self)];
        by apply preserves_replace_node.
    - destruct (override self); [| destruct (merge self)].
      + simpl. destruct (is_directory d).
        * by apply preserves_for_each_child.
        * by apply (preserves_replace_node (Directory path size entries)).
      + by apply preserves_merge_node.
      + by apply preserves_replace_node. }
  intros [d |]; [apply Hfound |].
  rewrite pack_unfold_search.
  apply preserves_bind; [apply preserves_search |].
  intros [d |]; [apply Hfound | apply preserves_ret].
Qed.

Lemma preserves_pack_all : preserves I (pack_all cwd fs_parent found_node name_eq).
Proof.
  intros self Hself. unfold pack_all.
  generalize (fs_entries (root_node (source self))) as nodes. intros nodes.
  revert self Hself. induction nodes as [| n nodes IH]; intros self Hself;
    [exact Hself |].
  apply (preserves_bind _ (fun _ => _)); [| intros _ ?; apply IH | exact Hself].
  apply preserves_bind; [apply preserves_search |].
  intros found. apply preserves_pack.
Qed.

Lemma preserves_override_node src dst :
  preserves I (override_node cwd fs_parent found_node name_eq src dst).
Proof.
  unfold override_node, override_node_with. destruct src as [p s | p s es].
  - apply preserves_replace_node.
  - destruct (is_directory dst).
    + apply preserves_for_each_child, Forall_forall.
      intros c _ d. apply preserves_pack.
    + apply (preserves_replace_node (Directory p s es)).
Qed.

End Preserved.

(** X9.  Whatever is true of the packer and is kept by its two methods
    [add_node] and [remove_node] is kept by [pack], by [pack_all] and by
    the override, merge and replace actions, whether they return or
    raise: a method changes the packer through these two only. *)
Theorem packer_changes_through_add_and_remove (cwd : list string)
    (fs_parent : FileSystemNode -> FileSystemNode)
    (found_node : TreeNode -> position -> Result FileSystemNode)
    (name_eq : string -> FileSystemNode -> bool)
    (I : Packer -> Prop) :
  (forall node parent self, I self -> I (fst (packer_add_node cwd node parent self))) ->
  (forall node self, I self -> I (fst (packer_remove_node cwd node self))) ->
  forall src dst found self,
    I self ->
    I (fst (pack cwd fs_parent found_node name_eq src found self)) /\
    I (fst (pack_all cwd fs_parent found_node name_eq self)) /\
    I (fst (override_node cwd fs_parent found_node name_eq src dst self)) /\
    I (fst (merge_node cwd fs_parent found_node name_eq src dst self)) /\
    I (fst (replace_node cwd fs_parent src dst self)).
Proof.
  intros Hadd Hrem src dst found self Hself.
  split; [by apply preserves_pack |].
  split; [by apply preserves_pack_all |].
  split; [by apply preserves_override_node |].
  split; [by apply preserves_merge_node | by apply preserves_replace_node].
Qed.

Lemma packer_changes_through_add_and_remove_witness :
  let self := MkPacker store_S (MkTree dir_D (Some tree_anchor_A)) false false in
  let I := fun p : Packer => source p = store_S in
  (forall node parent self, I self -> I (fst (packer_add_node [] node parent self))) /\
  (forall node self, I self -> I (fst (packer_remove_node [] node self))) /\
  I self /\
  I (fst (replace_node [] parent_directory src_A
            (Directory (absolute ["A"]) None []) self)).
Proof.
  intros self I.
  assert (Hadd : forall node parent self,
            I self -> I (fst (packer_add_node [] node parent self))).
  { intros node parent s Hs. unfold I. by rewrite keeps_source_add_node. }
  assert (Hrem : forall node self,
            I self -> I (fst (packer_remove_node [] node self))).
  { intros node s Hs. unfold I. by rewrite keeps_source_remove_node. }
  split; [exact Hadd |]. split; [exact Hrem |]. split; [reflexivity |].
  exact (proj2 (proj2 (proj2 (proj2
           (packer_changes_through_add_and_remove [] parent_directory
              (fun _ _ => Raise AttributeError) same_name I Hadd Hrem
              src_A (Directory (absolute ["A"]) None []) None self eq_refl))))).
Defined.

(** ** Siblings with distinct names *)

Lemma update_at_distinct_siblings f t pos :
  (forall u, node_name (f u) = node_name u) ->
  forall p,
    node_at t pos = Some p ->
    distinct_siblings (f p) = true ->
    distinct_siblings t = true ->
    distinct_siblings (update_at t pos f) = true.
Proof.
  intros Hname. revert t.
  induction pos as [| i rest IH]; intros t p Hp Hfp Ht; simpl in *.
  - by injection Hp as ->.
  - destruct (children t !! i) as [c |] eqn:Hi; [| exact Ht].
    apply distinct_siblings_spec in Ht as [Hnd Hall].
    apply distinct_siblings_spec. simpl. split.
    + change (NoDup (node_name <$> <[i := update_at c rest f]> (children t))).
      rewrite list_fmap_insert, (update_at_name _ _ _ Hname), list_insert_id;
        [exact Hnd |].
      by rewrite list_lookup_fmap, Hi.
    + apply Forall_insert; [exact Hall |].
      apply (IH c p Hp Hfp). rewrite Forall_forall in Hall.
      apply Hall. by eapply list_elem_of_lookup_2.
Qed.

Lemma with_last_child_distinct new p :
  first_named (node_name new) (children p) = None ->
  distinct_siblings new = true ->
  distinct_siblings p = true ->
  distinct_siblings (with_last_child new p) = true.
Proof.
  intros Hfresh Hnew [Hnd Hall]%distinct_siblings_spec.
  apply distinct_siblings_spec. simpl. split.
  - rewrite map_app. simpl. apply NoDup_app. split; [exact Hnd |].
    split; [| apply NoDup_singleton].
    intros x Hx ->%list_elem_of_singleton.
    apply list_elem_of_fmap in Hx as (d & Hd & Hin).
    apply first_named_None in Hfresh. rewrite Forall_forall in Hfresh.
    by apply (Hfresh d Hin).
  - apply Forall_app. split; [exact Hall | by constructor].
Qed.

Lemma without_child_distinct i p :
  distinct_siblings p = true -> distinct_siblings (without_child i p) = true.
Proof.
  intros [Hnd Hall]%distinct_siblings_spec.
  apply distinct_siblings_spec. simpl. split; [| by apply Forall_delete].
  change (NoDup (node_name <$> delete i (children p))).
  rewrite list_fmap_delete. eapply sublist_NoDup; [exact Hnd |].
  apply sublist_delete.
Qed.

Lemma node_at_distinct_siblings t pos : forall p,
  distinct_siblings t = true -> node_at t pos = Some p ->
  distinct_siblings p = true.
Proof.
  revert t. induction pos as [| i rest IH]; intros t p Ht; simpl.
  - by intros [= <-].
  - destruct (children t !! i) as [c |] eqn:Hi; [| discriminate].
    apply IH. apply distinct_siblings_spec in Ht as [_ Hall].
    rewrite Forall_forall in Hall. apply Hall. by eapply list_elem_of_lookup_2.
Qed.

Lemma mirror_distinct_siblings e :
  visible_distinct e = true -> distinct_siblings (mirror e) = true.
Proof.
  induction e as [path size | path size entries IH] using FileSystemNode_nested_ind;
    [reflexivity |].
  intros [Hnd Hall]%andb_true_iff.
  apply distinct_siblings_spec. simpl. rewrite mirror_children. split.
  - rewrite map_map. apply distinct_names_NoDup in Hnd.
    erewrite map_ext; [exact Hnd |]. intros c. apply mirror_name.
  - apply Forall_fmap, Forall_forall. intros c Hc. simpl.
    unfold visible in Hc. apply list_elem_of_In, filter_In in Hc as [Hc Hvis].
    apply negb_true_iff in Hvis.
    rewrite Forall_forall in IH. apply (IH c); [by apply list_elem_of_In |].
    rewrite forallb_forall in Hall. specialize (Hall c Hc).
    by rewrite Hvis in Hall.
Qed.

Lemma add_node_distinct_siblings cwd d parent_path child_node d' :
  add_node cwd d parent_path child_node = Ok d' ->
  tree_with_distinct_siblings d -> tree_with_distinct_siblings d'.
Proof.
  intros Hadd (root & Hroot & Hds). unfold add_node in Hadd.
  destruct (search_node_by_path cwd d parent_path) as [[pos |] |]; try discriminate.
  rewrite Hroot in Hadd. unfold attach in Hadd.
  destruct (node_at root pos) as [p |] eqn:Hp; [| discriminate].
  destruct (first_named (node_name (create_node child_node)) (children p)) eqn:Hf;
    [discriminate |].
  injection Hadd as <-. eexists. split; [reflexivity |].
  apply (update_at_distinct_siblings (with_last_child (create_node child_node))
           root pos (fun _ => eq_refl) p Hp); [| exact Hds].
  apply with_last_child_distinct; [exact Hf | reflexivity |].
  by eapply node_at_distinct_siblings.
Qed.

Lemma remove_node_distinct_siblings cwd d path d' :
  remove_node cwd d path = Ok d' ->
  tree_with_distinct_siblings d -> tree_with_distinct_siblings d'.
Proof.
  intros Hrm (root & Hroot & Hds).
  destruct (search_node_by_path cwd d path) as [[pos |] |] eqn:Hsearch;
    unfold remove_node in Hrm; rewrite Hsearch in Hrm; try discriminate.
  rewrite Hroot in Hrm. injection Hrm as <-.
  destruct (search_node_by_path_found cwd d root path pos Hroot Hsearch)
    as (parent_pos & i & p & n & -> & Hp & _).
  eexists. split; [reflexivity |]. rewrite detach_snoc.
  apply (update_at_distinct_siblings (without_child i)
           root parent_pos (fun _ => eq_refl) p Hp); [| exact Hds].
  apply without_child_distinct. by eapply node_at_distinct_siblings.
Qed.

Lemma apply_ops_distinct_siblings cwd ops : forall d,
  tree_with_distinct_siblings d ->
  tree_with_distinct_siblings (apply_ops cwd d ops).
Proof.
  unfold apply_ops.
  induction ops as [| op ops IH]; intros d Hd; [exact Hd |].
  simpl. apply IH. destruct op as [parent_path child_node | path]; simpl.
  - destruct (add_node cwd d parent_path child_node) eqn:E; [| exact Hd].
    by eapply add_node_distinct_siblings.
  - destruct (remove_node cwd d path) eqn:E; [| exact Hd].
    by eapply remove_node_distinct_siblings.
Qed.

(** X10.  No two siblings share a name: the tree that [build] leaves in
    the store has this property, every sequence of [add_node] and
    [remove_node] calls on a store keeps it, and so does every method of
    the packer for the destination store. *)
Theorem siblings_stay_distinct (cwd : list string)
    (fs_parent : FileSystemNode -> FileSystemNode)
    (found_node : TreeNode -> position -> Result FileSystemNode)
    (name_eq : string -> FileSystemNode -> bool) :
  (forall self self', build self = Ok self' -> tree_with_distinct_siblings self') /\
  (forall self ops,
     tree_with_distinct_siblings self ->
     tree_with_distinct_siblings (apply_ops cwd self ops)) /\
  (forall src dst found self,
     tree_with_distinct_siblings (destination self) ->
     let after m := destination (fst (m self)) in
     tree_with_distinct_siblings
       (after (pack cwd fs_parent found_node name_eq src found)) /\
     tree_with_distinct_siblings
       (after (pack_all cwd fs_parent found_node name_eq)) /\
     tree_with_distinct_siblings
       (after (override_node cwd fs_parent found_node name_eq src dst)) /\
     tree_with_distinct_siblings
       (after (merge_node cwd fs_parent found_node name_eq src dst)) /\
     tree_with_distinct_siblings (after (replace_node cwd fs_parent src dst))).
Proof.
  split; [| split].
  - intros self self' Hb.
    destruct (build_inv self self' Hb) as (-> & Hvd).
    eexists. split; [reflexivity |]. apply mirror_distinct_siblings.
    unfold buildable in Hvd. by apply andb_true_iff in Hvd as [_ Hvd].
  - intros self ops. apply apply_ops_distinct_siblings.
  - intros src dst found self Hself after. subst after. simpl.
    set (I := fun p : Packer => tree_with_distinct_siblings (destination p)).
    assert (Hadd : forall node parent, preserves I (packer_add_node cwd node parent)).
    { intros node parent s Hs. unfold I, packer_add_node in *.
      destruct (add_node cwd (destination s) (fs_path parent) node) eqn:E;
        [| exact Hs].
      simpl. by eapply add_node_distinct_siblings. }
    assert (Hrem : forall node, preserves I (packer_remove_node cwd node)).
    { intros node s Hs. unfold I, packer_remove_node in *.
      destruct (remove_node cwd (destination s) (fs_path node)) eqn:E;
        [| exact Hs].
      simpl. by eapply remove_node_distinct_siblings. }
    split; [by apply (preserves_pack cwd fs_parent found_node name_eq I Hadd Hrem) |].
    split; [by apply (preserves_pack_all cwd fs_parent found_node name_eq I Hadd Hrem) |].
    split; [by apply (preserves_override_node cwd fs_parent found_node name_eq I Hadd Hrem) |].
    split; [by apply (preserves_merge_node cwd fs_parent found_node name_eq I Hadd Hrem) |].
    by apply (preserves_replace_node cwd fs_parent I Hadd Hrem).
Qed.

(** ** Override and merge detach nothing *)

Lemma extends_refl t : extends t t.
Proof. intros q n Hq. eauto. Qed.

Lemma extends_trans t1 t2 t3 : extends t1 t2 -> extends t2 t3 -> extends t1 t3.
Proof.
  intros H12 H23 q n Hq.
  destruct (H12 q n Hq) as (n2 & Hq2 & Hd2).
  destruct (H23 q n2 Hq2) as (n3 & Hq3 & Hd3).
  exists n3. split; [exact Hq3 | congruence].
Qed.

Lemma store_extends_refl d : store_extends d d.
Proof. unfold store_extends. destruct (root_tree_node d); [apply extends_refl | exact I]. Qed.

Lemma store_extends_trans d1 d2 d3 :
  store_extends d1 d2 -> store_extends d2 d3 -> store_extends d1 d3.
Proof.
  unfold store_extends.
  destruct (root_tree_node d1), (root_tree_node d2), (root_tree_node d3);
    try done. apply extends_trans.
Qed.

Lemma add_node_store_extends cwd d parent_path child_node d' :
  add_node cwd d parent_path child_node = Ok d' -> store_extends d d'.
Proof.
  unfold add_node, store_extends.
  destruct (search_node_by_path cwd d parent_path) as [[pos |] |]; try discriminate.
  destruct (root_tree_node d) as [root |]; [| discriminate].
  unfold attach. destruct (node_at root pos) as [p |]; [| discriminate].
  destruct (first_named _ _); [discriminate |].
  intros [= <-]. simpl. apply (with_last_child_extends root pos).
Qed.

Lemma replace_node_not_both cwd fs_parent src dst :
  is_directory src && is_directory dst = false ->
  replace_node cwd fs_parent src dst = packer_add_node cwd src (fs_parent dst).
Proof.
  unfold replace_node. by destruct (is_directory src), (is_directory dst).
Qed.

Section Grows.

Variable cwd : list string.
Variable fs_parent : FileSystemNode -> FileSystemNode.
Variable found_node : TreeNode -> position -> Result FileSystemNode.
Variable name_eq : string -> FileSystemNode -> bool.

Variable C : Packer -> Prop.
Hypothesis C_with_destination :
  forall self d, C self -> C (with_destination self d).

Lemma grows_ret {A} (a : A) : grows_when C (ret a).
Proof. intros self Hself. split; [apply store_extends_refl | exact Hself]. Qed.

Lemma grows_bind {A B} (m : Run A) (k : A -> Run B) :
  grows_when C m -> (forall a, grows_when C (k a)) -> grows_when C (bind m k).
Proof.
  intros Hm Hk self Hself. unfold bind. destruct (Hm self Hself) as [Hext HC].
  destruct (m self) as [self' [a | e]]; simpl in *; [| by split].
  destruct (Hk a self' HC) as [Hext' HC']. split; [| exact HC'].
  by eapply store_extends_trans.
Qed.

Lemma grows_add_node node parent : grows_when C (packer_add_node cwd node parent).
Proof.
  intros self Hself. unfold packer_add_node.
  destruct (add_node cwd (destination self) (fs_path parent) node) as [d |] eqn:E;
    simpl.
  - split; [by eapply add_node_store_extends | by apply C_with_destination].
  - split; [apply store_extends_refl | exact Hself].
Qed.

Lemma grows_search node :
  grows_when C (search_destination found_node name_eq node).
Proof.
  intros self Hself.
  assert (Hsame : fst (search_destination found_node name_eq node self) = self).
  { unfold search_destination.
    destruct (search_node_by_name name_eq (destination self) node) as [[pos |] |];
      try reflexivity.
    destruct (root_tree_node (destination self)) as [root |]; [| reflexivity].
    by destruct (found_node root pos). }
  rewrite Hsame. split; [apply store_extends_refl | exact Hself].
Qed.

Lemma grows_for_each_child recur dst entries :
  Forall (fun c => forall d, grows_when C (recur c d)) entries ->
  grows_when C (for_each_child cwd found_node name_eq recur dst entries).
Proof.
  induction 1 as [| c cs Hc _ IH]; simpl; [apply grows_ret |].
  destruct (is_hidden c); [exact IH |].
  apply grows_bind; [| intros _; exact IH].
  apply grows_bind; [apply grows_search |].
  intros [d |]; [apply Hc | apply grows_add_node].
Qed.

Lemma grows_merge_node src :
  forall dst, grows_when C (merge_node cwd fs_parent found_node name_eq src dst).
Proof.
  induction src as [path size | path size entries IH] using FileSystemNode_nested_ind;
    intros dst; simpl.
  - rewrite replace_node_not_both by reflexivity. apply grows_add_node.
  - destruct (is_directory dst) eqn:Hdst.
    + by apply grows_for_each_child.
    + rewrite replace_node_not_both by (simpl; by rewrite Hdst).
      apply grows_add_node.
Qed.

End Grows.

Lemma union_policy_with_destination self d :
  union_policy self -> union_policy (with_destination self d).
Proof. by intros H. Qed.

Lemma grows_pack_found cwd fs_parent found_node name_eq src :
  forall d,
    grows_when union_policy (pack cwd fs_parent found_node name_eq src (Some d)).
Proof.
  induction src as [path size | path size entries IH] using FileSystemNode_nested_ind;
    intros d self Hself; rewrite pack_unfold.
  - destruct (override self) eqn:Ho; [| destruct (merge self) eqn:Hm].
    + simpl. rewrite replace_node_not_both by reflexivity.
      by apply grows_add_node.
    + by apply (grows_merge_node cwd fs_parent found_node name_eq union_policy
                  union_policy_with_destination (File path size)).
    + destruct Hself; congruence.
  - destruct (override self) eqn:Ho; [| destruct (merge self) eqn:Hm].
    + simpl. destruct (is_directory d) eqn:Hd.
      * by apply (grows_for_each_child cwd found_node name_eq union_policy
                    union_policy_with_destination).
      * rewrite replace_node_not_both by (simpl; by rewrite Hd).
        by apply grows_add_node.
    + by apply (grows_merge_node cwd fs_parent found_node name_eq union_policy
                  union_policy_with_destination).
    + destruct Hself; congruence.
Qed.

Lemma grows_pack cwd fs_parent found_node name_eq src found :
  grows_when union_policy (pack cwd fs_parent found_node name_eq src found).
Proof.
  destruct found as [d |]; [apply grows_pack_found |].
  rewrite pack_unfold_search.
  apply grows_bind; [by apply grows_search |].
  intros [d |]; [apply grows_pack_found | apply grows_ret].
Qed.

Lemma grows_pack_all cwd fs_parent found_node name_eq :
  grows_when union_policy (pack_all cwd fs_parent found_node name_eq).
Proof.
  intros self Hself. unfold pack_all.
  generalize (fs_entries (root_node (source self))) as nodes. intros nodes.
  revert self Hself. induction nodes as [| n nodes IH]; intros self Hself;
    [by apply grows_ret |].
  apply (grows_bind union_policy _ (fun _ => _)); [| intros _ ?; apply IH | exact Hself].
  apply grows_bind; [by apply grows_search |].
  intros found. apply grows_pack.
Qed.

(** X11.  Under the override policy or the merge policy the packer
    detaches nothing: after [pack] or [pack_all], returned or raised,
    every node that the destination tree had is still there, at the same
    position and with the same name, size and type.  The merge action
    keeps every node whatever the policy flags are. *)
Theorem override_and_merge_detach_nothing (cwd : list string)
    (fs_parent : FileSystemNode -> FileSystemNode)
    (found_node : TreeNode -> position -> Result FileSystemNode)
    (name_eq : string -> FileSystemNode -> bool)
    (src dst : FileSystemNode) (found : option FileSystemNode) (self : Packer) :
  (override self = true \/ merge self = true ->
   store_extends (destination self)
     (destination (fst (pack cwd fs_parent found_node name_eq src found self))) /\
   store_extends (destination self)
     (destination (fst (pack_all cwd fs_parent found_node name_eq self)))) /\
  store_extends (destination self)
    (destination (fst (merge_node cwd fs_parent found_node name_eq src dst self))).
Proof.
  split.
  - intros Hpolicy. split.
    + by apply grows_pack.
    + by apply grows_pack_all.
  - by apply (grows_merge_node cwd fs_parent found_node name_eq (fun _ => True)
                (fun _ _ _ => I) src dst self I).
Qed.

Lemma override_and_merge_detach_nothing_witness :
  let self := MkPacker store_S (MkTree dir_D (Some tree_anchor_A)) true false in
  let dst := Directory (absolute ["A"]) None [] in
  (override self = true \/ merge self = true) /\
  store_extends (destination self)
    (destination (fst (pack [] parent_directory (fun _ _ => Raise AttributeError)
                         same_name src_A (Some dst) self))).
Proof.
  intros self dst. split; [by left |].
  exact (proj1 (proj1 (override_and_merge_detach_nothing [] parent_directory
           (fun _ _ => Raise AttributeError) same_name src_A dst (Some dst) self)
           (or_introl eq_refl))).
Defined.

Example override_when_found :
  let self := MkPacker store_S (MkTree dir_D (Some tree_anchor_A)) true false in
  let dst := Directory (absolute ["A"]) None [] in
  root_tree_node
    (destination (fst (pack [] parent_directory (fun _ _ => Raise AttributeError)
                         same_name src_A (Some dst) self)))
  = Some (Node "r" None (Some KDirectory)
            [Node "/" None (Some KDirectory)
               [Node "A" None (Some KDirectory)
                  [Node "z" (Some 3%Z) (Some KFile) [];
                   Node "x.txt" (Some 10%Z) (Some KFile) [];
                   Node "sub" None (Some KDirectory) []]]]).
Proof. reflexivity. Qed.

(** ** Pairs that are not two directories *)

(** X12.  When the source node or the destination node is not a
    directory, [pack] on the pair does the same under every policy: one
    call of the packer's [add_node] that attaches the source node under
    the parent of the destination node.  Nothing is detached, so every
    node of the destination tree, the destination node among them, stays
    where it was. *)
Theorem pack_attaches_beside_when_not_two_directories (cwd : list string)
    (fs_parent : FileSystemNode -> FileSystemNode)
    (found_node : TreeNode -> position -> Result FileSystemNode)
    (name_eq : string -> FileSystemNode -> bool)
    (src dst : FileSystemNode) (self : Packer) :
  is_directory src && is_directory dst = false ->
  pack cwd fs_parent found_node name_eq src (Some dst) self
  = packer_add_node cwd src (fs_parent dst) self /\
  override_node cwd fs_parent found_node name_eq src dst self
  = packer_add_node cwd src (fs_parent dst) self /\
  merge_node cwd fs_parent found_node name_eq src dst self
  = packer_add_node cwd src (fs_parent dst) self /\
  replace_node cwd fs_parent src dst self
  = packer_add_node cwd src (fs_parent dst) self /\
  store_extends (destination self)
    (destination (fst (pack cwd fs_parent found_node name_eq src (Some dst) self))).
Proof.
  intros Hpair.
  pose proof (replace_node_not_both cwd fs_parent src dst Hpair) as Hreplace.
  assert (Hmerge : merge_node cwd fs_parent found_node name_eq src dst
                   = replace_node cwd fs_parent src dst).
  { destruct src as [p s | p s es]; [reflexivity |].
    simpl in *. by rewrite Hpair. }
  assert (Hoverride : override_node cwd fs_parent found_node name_eq src dst
                      = replace_node cwd fs_parent src dst).
  { unfold override_node, override_node_with.
    destruct src as [p s | p s es]; [reflexivity |].
    simpl in *. by rewrite Hpair. }
  assert (Hpack : pack cwd fs_parent found_node name_eq src (Some dst) self
                  = packer_add_node cwd src (fs_parent dst) self).
  { rewrite pack_unfold. fold (override_node cwd fs_parent found_node name_eq).
    rewrite Hoverride, Hmerge, Hreplace.
    by destruct (override self), (merge self). }
  split; [exact Hpack |]. split; [by rewrite Hoverride, Hreplace |].
  split; [by rewrite Hmerge, Hreplace |]. split; [by rewrite Hreplace |].
  rewrite Hpack.
  by apply (grows_add_node cwd (fun _ => True) (fun _ _ _ => I) src (fs_parent dst) self).
Qed.

Lemma pack_attaches_beside_when_not_two_directories_witness :
  let self := MkPacker store_S (MkTree dir_D (Some tree_anchor_A)) false false in
  let dst := Directory (absolute ["A"]) None [] in
  is_directory src_x && is_directory dst = false /\
  pack [] parent_directory (fun _ _ => Raise AttributeError) same_name src_x (Some dst) self
  = packer_add_node [] src_x (parent_directory dst) self.
Proof.
  intros self dst. split; [reflexivity |].
  exact (proj1 (pack_attaches_beside_when_not_two_directories [] parent_directory
           (fun _ _ => Raise AttributeError) same_name src_x dst self eq_refl)).
Defined.

(** ** A source node that the destination does not have *)

Lemma _find_by_name_absent {N} (eq : string -> N -> bool) (name : N) root :
  (forall q n, node_at root q = Some n -> eq (node_name n) name = false) ->
  _find_by_name eq root name = None.
Proof.
  intros Habsent. destruct (_find_by_name eq root name) as [pos |] eqn:Hf;
    [| reflexivity].
  apply _find_by_name_sound in Hf as (n & Hn & Heq).
  rewrite (Habsent pos n Hn) in Heq. discriminate.
Qed.

(** X13.  [pack] adds nothing by itself: called without a destination
    node for a source node that compares equal to no node of the
    destination tree, it returns with the packer unchanged; and [pack_all]
    returns with the packer unchanged when this is so for every
    first-level entry of the source root. *)
Theorem pack_without_match_does_nothing (cwd : list string)
    (fs_parent : FileSystemNode -> FileSystemNode)
    (found_node : TreeNode -> position -> Result FileSystemNode)
    (name_eq : string -> FileSystemNode -> bool)
    (self : Packer) (root : TreeNode) :
  root_tree_node (destination self) = Some root ->
  (forall src,
     (forall q n, node_at root q = Some n -> name_eq (node_name n) src = false) ->
     pack cwd fs_parent found_node name_eq src None self = (self, Ok tt)) /\
  ((forall src, In src (fs_entries (root_node (source self))) ->
      forall q n, node_at root q = Some n -> name_eq (node_name n) src = false) ->
   pack_all cwd fs_parent found_node name_eq self = (self, Ok tt)).
Proof.
  intros Hroot.
  assert (Hsearch : forall src,
    (forall q n, node_at root q = Some n -> name_eq (node_name n) src = false) ->
    search_destination found_node name_eq src self = (self, Ok None)).
  { intros src Habsent. unfold search_destination, search_node_by_name.
    by rewrite Hroot, (_find_by_name_absent name_eq src root Habsent). }
  assert (Hpack : forall src,
    (forall q n, node_at root q = Some n -> name_eq (node_name n) src = false) ->
    pack cwd fs_parent found_node name_eq src None self = (self, Ok tt)).
  { intros src Habsent. rewrite pack_unfold_search. unfold bind.
    by rewrite (Hsearch src Habsent). }
  split; [exact Hpack |].
  unfold pack_all. generalize (fs_entries (root_node (source self))) as nodes.
  induction nodes as [| n nodes IH]; intros Habsent; [reflexivity |].
  unfold bind in *. rewrite (Hsearch n) by (apply Habsent; by left).
  rewrite (Hpack n) by (apply Habsent; by left).
  apply IH. intros src Hin. apply Habsent. by right.
Qed.

Lemma pack_without_match_does_nothing_witness :
  let self := MkPacker store_S store_D true false in
  root_tree_node (destination self) = Some tree_D /\
  (forall src, In src (fs_entries (root_node (source self))) ->
     forall q n, node_at tree_D q = Some n -> never_equal (node_name n) src = false) /\
  pack_all [] parent_directory (fun _ _ => Raise AttributeError) never_equal self
  = (self, Ok tt).
Proof.
  intros self.
  assert (Habsent : forall src, In src (fs_entries (root_node (source self))) ->
            forall q n, node_at tree_D q = Some n ->
                        never_equal (node_name n) src = false) by reflexivity.
  split; [reflexivity |]. split; [exact Habsent |].
  exact (proj2 (pack_without_match_does_nothing [] parent_directory
           (fun _ _ => Raise AttributeError) never_equal self tree_D eq_refl)
           Habsent).
Defined.

(** ** Saving and restoring *)

(** X14.  After [save] of a store built from a directory whose visible
    entries have proper names, whatever was on the disk before and
    whenever the call is made, [restore] of the root's name returns the
    tree of the store with its names and the order of its children and
    without sizes and types; [save] writes the one file of that name,
    stamped with the time of the call, and leaves every other file as it
    was. *)
Theorem save_then_restore (t now : Q) (root_entity : FileSystemNode)
    (self : FileSystemNodeTree) (disk : Disk) :
  entity_well_named root_entity = true ->
  build (MkTree root_entity None) = Ok self ->
  exists root,
    root_tree_node self = Some root /\
    snd (save t self disk) = Ok tt /\
    snd (restore now (fs_name root_entity) (fst (save t self disk)))
    = Ok (names_only root) /\
    st_mtime <$> fst (save t self disk) !! saved_path (fs_name root_entity) = Some t /\
    (forall file_path, file_path <> saved_path (fs_name root_entity) ->
                       fst (save t self disk) !! file_path = disk !! file_path).
Proof.
  intros Hwn Hbuild.
  destruct (built_well_named root_entity self Hwn Hbuild) as [Hself Hroot].
  set (root := mirror root_entity) in *. exists root.
  assert (Hr : root_tree_node self = Some root) by by rewrite Hself.
  assert (He : root_node self = root_entity) by by rewrite Hself.
  clear Hself. split; [exact Hr |].
  set (file := saved_path (fs_name root_entity)).
  set (disk0 := if check_saved_tree t (fs_name root_entity) None disk
                then delete file disk else disk).
  assert (Hother : forall file_path, file_path <> file ->
                                     disk0 !! file_path = disk !! file_path).
  { intros file_path Hne. unfold disk0.
    destruct (check_saved_tree t (fs_name root_entity) None disk);
      [by rewrite lookup_delete_ne | reflexivity]. }
  assert (Hsave : save t self disk
                  = (<[file := MkFile t (JsonText (bigtree_tree_to_dict root))]> disk0,
                     Ok tt)).
  { unfold save, export, tree_to_dict. by rewrite Hr, He. }
  rewrite Hsave. cbn [fst snd].
  split; [reflexivity |]. split; [| split].
  - unfold restore, check_saved_tree, importer. fold file.
    rewrite lookup_insert_eq.
    rewrite bool_decide_eq_true_2 by eauto. cbn [negb content fst snd].
    by apply dict_to_tree_of_tree_to_dict.
  - by rewrite lookup_insert_eq.
  - intros file_path Hne. rewrite lookup_insert_ne by done. by apply Hother.
Qed.

Lemma save_then_restore_witness :
  entity_well_named dir_D = true /\
  build (MkTree dir_D None) = Ok store_D /\
  exists root,
    root_tree_node store_D = Some root /\
    snd (save 5 store_D ∅) = Ok tt /\
    snd (restore 9 (fs_name dir_D) (fst (save 5 store_D ∅))) = Ok (names_only root) /\
    st_mtime <$> fst (save 5 store_D ∅) !! saved_path (fs_name dir_D) = Some 5%Q /\
    (forall file_path, file_path <> saved_path (fs_name dir_D) ->
                       fst (save 5 store_D ∅) !! file_path = (∅ : Disk) !! file_path).
Proof.
  split; [reflexivity |]. split; [reflexivity |].
  exact (save_then_restore 5 9 dir_D store_D ∅ eq_refl eq_refl).
Defined.

(** X15.  The age gate opens with [max_age]: a saved tree that passes
    the check for one [max_age] passes it for every larger one and passes
    the check without [max_age]; and a tree saved at time [t] passes the
    check made at time [now] for [max_age] exactly when [now - t] is
    below [max_age], so a save passes for every positive [max_age] at the
    moment it is made. *)
Theorem check_saved_tree_widens (now : Q) (node_name : string) (disk : Disk)
    (max_age : Z) :
  (check_saved_tree now node_name (Some max_age) disk = true ->
   (forall wider : Z, (max_age <= wider)%Z ->
      check_saved_tree now node_name (Some wider) disk = true) /\
   check_saved_tree now node_name None disk = true) /\
  (forall (self : FileSystemNodeTree) (t : Q),
     check_saved_tree now (fs_name (root_node self)) (Some max_age)
       (fst (save t self disk)) = true
     <-> (now - t < inject_Z max_age)%Q) /\
  (forall self : FileSystemNodeTree,
     (0 < max_age)%Z ->
     check_saved_tree now (fs_name (root_node self)) (Some max_age)
       (fst (save now self disk)) = true).
Proof.
  assert (Hsaved : forall (self : FileSystemNodeTree) (t : Q),
    check_saved_tree now (fs_name (root_node self)) (Some max_age)
      (fst (save t self disk)) = true
    <-> (now - t < inject_Z max_age)%Q).
  { intros self t. destruct (lookup_after_save t self disk) as [c Hc].
    unfold check_saved_tree. rewrite Hc. simpl. apply Qltb_lt. }
  split; [| split; [exact Hsaved |]].
  - unfold check_saved_tree.
    destruct (disk !! saved_path node_name) as [f |]; [| discriminate].
    intros Hage%Qltb_lt. split; [| by apply bool_decide_eq_true_2].
    intros wider Hle. apply Qltb_lt.
    eapply Qlt_le_trans; [exact Hage |]. by rewrite <- Zle_Qle.
  - intros self Hpos. apply Hsaved.
    assert (Hzero : (now - now == 0)%Q) by ring.
    rewrite Hzero. change 0%Q with (inject_Z 0). by rewrite <- Zlt_Qlt.
Qed.

Lemma check_saved_tree_widens_witness :
  let disk : Disk := {[ saved_path "D" := MkFile 5 NotJson ]} in
  check_saved_tree 7 "D" (Some 3%Z) disk = true /\
  (3 <= 10)%Z /\
  check_saved_tree 7 "D" (Some 10%Z) disk = true /\
  check_saved_tree 7 "D" None disk = true.
Proof.
  intros disk.
  destruct (proj1 (check_saved_tree_widens 7 "D" disk 3) eq_refl) as [Hwider Hnone].
  split; [reflexivity |]. split; [lia |].
  split; [apply Hwider; lia | exact Hnone].
Defined.

Lemma siblings_stay_distinct_witness :
  let self := MkTree dir_D (Some tree_anchor_A) in
  tree_with_distinct_siblings self /\
  tree_with_distinct_siblings
    (apply_ops [] self [RemoveNode (absolute ["A"; "z"]); AddNode (absolute ["A"]) src_x]).
Proof.
  intros self.
  assert (Hself : tree_with_distinct_siblings self)
    by (exists tree_anchor_A; split; reflexivity).
  split; [exact Hself |].
  exact (proj1 (proj2 (siblings_stay_distinct [] parent_directory
           (fun _ _ => Raise AttributeError) same_name)) self _ Hself).
Defined.

(** ** What [build] leaves when entities fail and the cache answers *)

Lemma pruned_create_node e : pruned (create_node e) (mirror e).
Proof.
  destruct e as [path size | path size entries]; simpl;
    apply (pruned_node _ _ _ [] _ []); try constructor.
  apply sublist_nil_l.
Qed.

Lemma pruned_data t m : pruned t m -> node_data t = node_data m.
Proof. by intros []. Qed.

Section AnyWorld.

Variable w : World.

Lemma build_children_pruned recur entries :
  Forall (fun c => forall k k' t raised,
                     recur c (create_node c) k = (k', t, raised) ->
                     pruned t (mirror c) /\ distinct_siblings t = true) entries ->
  forall stop tree_node k k' t raised,
    Forall (fun c => distinct_siblings c = true) (children tree_node) ->
    NoDup (map node_name (children tree_node)) ->
    build_children w recur entries stop tree_node k = (k', t, raised) ->
    exists added kept,
      t = with_children tree_node (children tree_node ++ added) /\
      sublist kept (map mirror (visible entries)) /\
      Forall2 pruned added kept /\
      Forall (fun c => distinct_siblings c = true) (children t) /\
      NoDup (map node_name (children t)).
Proof.
  assert (Hnone : forall tree_node : TreeNode,
            Forall (fun c => distinct_siblings c = true) (children tree_node) ->
            NoDup (map node_name (children tree_node)) ->
            forall ms, exists added kept,
              tree_node = with_children tree_node (children tree_node ++ added) /\
              sublist kept ms /\ Forall2 pruned added kept /\
              Forall (fun c => distinct_siblings c = true) (children tree_node) /\
              NoDup (map node_name (children tree_node))).
  { intros tree_node Hds Hnd ms. exists [], [].
    rewrite app_nil_r. split; [by destruct tree_node |].
    split; [apply sublist_nil_l |]. split; [constructor | done]. }
  induction 1 as [| c cs Hc _ IH]; intros stop tree_node k k' t raised Hds Hnd; simpl.
  - intros [= <- <- <-]. by apply Hnone.
  - unfold visible in *. simpl.
    destruct (is_hidden c) eqn:Hhid; simpl; [by apply IH |].
    assert (Hskip : forall stop' k1,
              build_children w recur cs stop' tree_node k1 = (k', t, raised) ->
              exists added kept,
                t = with_children tree_node (children tree_node ++ added) /\
                sublist kept (mirror c :: map mirror
                               (List.filter (fun c0 => negb (is_hidden c0)) cs)) /\
                Forall2 pruned added kept /\
                Forall (fun c => distinct_siblings c = true) (children t) /\
                NoDup (map node_name (children t))).
    { intros stop' k1 Hb.
      destruct (IH _ _ _ _ _ _ Hds Hnd Hb) as (added & kept & -> & Hsub & Hall & Hrest).
      exists added, kept. split; [reflexivity |].
      split; [by apply sublist_cons | done]. }
    assert (Hkeep : forall stop' k1 tc,
              pruned tc (mirror c) -> distinct_siblings tc = true ->
              fs_name c ∉ map node_name (children tree_node) ->
              build_children w recur cs stop'
                (with_children tree_node (children tree_node ++ [tc])) k1
              = (k', t, raised) ->
              exists added kept,
                t = with_children tree_node (children tree_node ++ added) /\
                sublist kept (mirror c :: map mirror
                               (List.filter (fun c0 => negb (is_hidden c0)) cs)) /\
                Forall2 pruned added kept /\
                Forall (fun c => distinct_siblings c = true) (children t) /\
                NoDup (map node_name (children t))).
    { intros stop' k1 tc Htc Hdtc Hfresh Hb.
      apply IH in Hb as (added & kept & -> & Hsub & Hall & Hrest).
      - exists (tc :: added), (mirror c :: kept). simpl in *.
        rewrite <- app_assoc in *. simpl in *.
        split; [reflexivity |]. split; [by apply sublist_skip |].
        split; [by constructor | exact Hrest].
      - simpl. apply Forall_app. split; [exact Hds | by constructor].
      - simpl. rewrite map_app. simpl.
        apply NoDup_app. split; [exact Hnd |]. split; [| apply NoDup_singleton].
        intros x Hx ->%list_elem_of_singleton. apply Hfresh.
        apply pruned_data in Htc. rewrite <- mirror_name.
        unfold node_data in Htc. by injection Htc as <- _ _. }
    assert (Hend : forall tc,
              pruned tc (mirror c) -> distinct_siblings tc = true ->
              fs_name c ∉ map node_name (children tree_node) ->
              t = with_children tree_node (children tree_node ++ [tc]) ->
              exists added kept,
                t = with_children tree_node (children tree_node ++ added) /\
                sublist kept (mirror c :: map mirror
                               (List.filter (fun c0 => negb (is_hidden c0)) cs)) /\
                Forall2 pruned added kept /\
                Forall (fun c => distinct_siblings c = true) (children t) /\
                NoDup (map node_name (children t))).
    { intros tc Htc Hdtc Hfresh ->. exists [tc], [mirror c]. simpl.
      split; [reflexivity |]. split; [apply sublist_skip, sublist_nil_l |].
      split; [by repeat constructor |]. split.
      - apply Forall_app. split; [exact Hds | by constructor].
      - rewrite map_app. simpl.
        apply NoDup_app. split; [exact Hnd |]. split; [| apply NoDup_singleton].
        intros x Hx ->%list_elem_of_singleton. apply Hfresh.
        apply pruned_data in Htc. rewrite <- mirror_name.
        unfold node_data in Htc. by injection Htc as <- _ _. }
    assert (Hbody : forall stop',
              match try_child w recur c tree_node k with
              | (k1, tree_node', Some e) =>
                  if recovered e then build_children w recur cs stop' tree_node' k1
                  else (k1, tree_node', Some e)
              | (k1, tree_node', None) => build_children w recur cs stop' tree_node' k1
              end = (k', t, raised) ->
              exists added kept,
                t = with_children tree_node (children tree_node ++ added) /\
                sublist kept (mirror c :: map mirror
                               (List.filter (fun c0 => negb (is_hidden c0)) cs)) /\
                Forall2 pruned added kept /\
                Forall (fun c => distinct_siblings c = true) (children t) /\
                NoDup (map node_name (children t))).
    { intros stop'. unfold try_child, create_node_under.
      destruct (get_size_raises w c) as [x |].
      { destruct (recovered x); [apply Hskip |]. intros [= <- <- <-]. by apply Hnone. }
      destruct (first_named (fs_name c) (children tree_node)) as [[i d] |] eqn:Hf.
      { intros [= <- <- <-]. by apply Hnone. }
      apply first_named_fresh_inv in Hf.
      destruct (String.eqb (fs_name c) EmptyString).
      { simpl. intros [= <- <- <-].
        by apply (Hend (create_node c)); [apply pruned_create_node | destruct c | |]. }
      destruct (is_directory c) eqn:Hdir.
      - destruct (recur c (create_node c) k) as [[k1 tc] r] eqn:Hr.
        destruct (Hc _ _ _ _ Hr) as [Htc Hdtc].
        destruct r as [x |].
        + destruct (recovered x); [by apply Hkeep |].
          intros [= <- <- <-]. by apply (Hend tc).
        + by apply Hkeep.
      - by apply Hkeep; [apply pruned_create_node | destruct c |]. }
    destruct stop as [[[| n] e] |]; [| apply Hbody | apply Hbody].
    intros [= <- <- <-]. by apply Hnone.
Qed.


Lemma build_tree_recursive_pruned e :
  forall k k' t raised,
    __build_tree_recursive w e (create_node e) k = (k', t, raised) ->
    pruned t (mirror e) /\ distinct_siblings t = true.
Proof.
  induction e as [path size | path size entries IH] using FileSystemNode_nested_ind;
    intros k k' t raised; simpl; destruct (cache_hit w k).
  - intros [= <- <- <-]. split; [| reflexivity].
    apply (pruned_create_node (File path size)).
  - intros [= <- <- <-]. split; [| reflexivity].
    apply (pruned_create_node (File path size)).
  - intros [= <- <- <-]. split; [| reflexivity].
    apply (pruned_create_node (Directory path size entries)).
  - intros Hb.
    apply (build_children_pruned _ entries) in Hb
      as (added & kept & -> & Hsub & Hall & Hds & Hnd);
      [| exact IH | constructor | constructor].
    split.
    + simpl. rewrite mirror_children. by apply (pruned_node _ _ _ _ _ kept).
    + apply distinct_siblings_spec. by split.
Qed.



End AnyWorld.

(** X20.  Whatever the entities raise and whatever the cache answers, and
    whether [build] returns or raises: when the root node cannot be made,
    because the size or type of the root entity cannot be read or the
    root entity has no name, [build] raises and the store is as it was;
    otherwise the store has a tree that is a pruning of the mirror of the
    root entity, so every node of it stands for a visible entry, with the
    entry's name, size and type, under the node of the entry's directory
    and in the order of the enumeration, and no two siblings of it have
    the same name. *)
Theorem build_leaves_a_pruning_of_the_mirror (world : World)
    (self : FileSystemNodeTree) :
  (is_Some (get_size_raises world (root_node self)) \/
   fs_name (root_node self) = EmptyString ->
   fst (build_in world self) = self /\ is_Some (snd (build_in world self))) /\
  (get_size_raises world (root_node self) = None ->
   fs_name (root_node self) <> EmptyString ->
   exists t,
     fst (build_in world self) = with_root_tree_node self t /\
     pruned t (mirror (root_node self)) /\
     distinct_siblings t = true).
Proof.
  unfold build_in, __build_tree. split.
  - intros [[x Hx] | Hname].
    + rewrite Hx. simpl. eauto.
    + destruct (get_size_raises world (root_node self)); [simpl; eauto |].
      rewrite Hname. simpl. eauto.
  - intros Hsize Hname. rewrite Hsize.
    rewrite (proj2 (String.eqb_neq _ _) Hname).
    destruct (__build_tree_recursive world (root_node self)
                (create_node (root_node self)) 0) as [[k' t] r] eqn:Hb.
    exists t. split; [reflexivity |].
    exact (build_tree_recursive_pruned world _ _ _ _ _ Hb).
Qed.


Lemma build_leaves_a_pruning_of_the_mirror_witness :
  get_size_raises world_unreadable_x dir_D = None /\
  fs_name dir_D <> EmptyString /\
  build_in world_unreadable_x (MkTree dir_D None)
  = (MkTree dir_D
       (Some (Node "D" None (Some KDirectory)
                [Node "B" None (Some KDirectory) [];
                 Node "A" None (Some KDirectory) []])), None) /\
  exists t,
    fst (build_in world_unreadable_x (MkTree dir_D None))
    = with_root_tree_node (MkTree dir_D None) t /\
    pruned t (mirror dir_D) /\ distinct_siblings t = true.
Proof.
  split; [reflexivity |]. split; [discriminate |]. split; [reflexivity |].
  apply (proj2 (build_leaves_a_pruning_of_the_mirror world_unreadable_x
                  (MkTree dir_D None))); [reflexivity | discriminate].
Defined.


Lemma mirror_no_anchor e :
  entity_well_named e = true ->
  Forall (fun m => node_name m <> "/") (children (mirror e)).
Proof.
  destruct e as [path size | path size entries]; [constructor |].
  simpl. intros [_ Hentries]%andb_true_iff. rewrite mirror_children.
  rewrite forallb_forall in Hentries.
  apply Forall_fmap, Forall_forall. intros c Hc. simpl. rewrite mirror_name.
  apply list_elem_of_In, filter_In in Hc as [Hin Hhid].
  apply negb_true_iff in Hhid. specialize (Hentries c Hin).
  rewrite Hhid in Hentries. simpl in Hentries.
  apply good_name_not_anchor. destruct c; simpl in Hentries;
    by apply andb_true_iff in Hentries as [Hname _].
Qed.

Lemma pruned_no_anchor t m :
  pruned t m ->
  Forall (fun m' => node_name m' <> "/") (children m) ->
  first_named "/" (children t) = None.
Proof.
  intros [n s k cs ms kept Hsub Hall] Hms. simpl in *.
  apply first_named_None.
  assert (Hkept : Forall (fun m' => node_name m' <> "/") kept).
  { rewrite Forall_forall in Hms. apply Forall_forall. intros m' Hm'.
    by eapply Hms, elem_of_sublist. }
  clear Hsub Hms.
  induction Hall as [| c m' cs kept Hc _ IH]; [constructor |].
  apply Forall_cons in Hkept as [Hm' Hkept].
  constructor; [| by apply IH].
  apply pruned_data in Hc. unfold node_data in Hc. by injection Hc as -> _ _.
Qed.

(** X22.  Whatever the entities raise and whatever the cache answers, a
    [build] on a root entity with proper names, once it has made the root
    node, leaves a store in which no path is found, whether it returns or
    raises: for every working directory and every path
    [search_node_by_path] answers [None], [remove_node] and [add_node]
    raise [ValueError], and every sequence of [add_node] and [remove_node]
    calls leaves the store as the build left it. *)
Theorem build_leaves_a_frozen_store (cwd : list string) (world : World)
    (self : FileSystemNodeTree) :
  entity_well_named (root_node self) = true ->
  get_size_raises world (root_node self) = None ->
  (forall path,
     search_node_by_path cwd (fst (build_in world self)) path = Ok None /\
     remove_node cwd (fst (build_in world self)) path = Raise ValueError /\
     (forall child_node,
        add_node cwd (fst (build_in world self)) path child_node = Raise ValueError)) /\
  (forall ops,
     apply_ops cwd (fst (build_in world self)) ops = fst (build_in world self)).
Proof.
  intros Hwn Hsize.
  assert (Hname : fs_name (root_node self) <> EmptyString).
  { destruct (root_node self); simpl in Hwn;
      apply andb_true_iff in Hwn as [Hname _];
      apply good_name_spec in Hname; by destruct Hname. }
  assert (Hleft : no_anchor_child (fst (build_in world self))).
  { unfold build_in, __build_tree. rewrite Hsize.
    rewrite (proj2 (String.eqb_neq _ _) Hname).
    destruct (__build_tree_recursive world (root_node self)
                (create_node (root_node self)) 0) as [[k' t] r] eqn:Hb.
    exists t. split; [reflexivity |].
    destruct (build_tree_recursive_pruned world _ _ _ _ _ Hb) as [Hpruned _].
    apply (pruned_no_anchor _ _ Hpruned). by apply mirror_no_anchor. }
  split; [| intros ops; by apply apply_ops_no_anchor].
  destruct Hleft as (root & Hroot & Hnone). intros path.
  split; [by eapply search_node_by_path_anchor |].
  split; [by eapply remove_node_anchor |].
  intros child_node. by eapply add_node_anchor.
Qed.

Lemma build_leaves_a_frozen_store_witness :
  entity_well_named dir_D = true /\
  get_size_raises world_unlistable_D dir_D = None /\
  snd (build_in world_unlistable_D (MkTree dir_D None)) = Some OSError /\
  search_node_by_path [] (fst (build_in world_unlistable_D (MkTree dir_D None)))
    (absolute ["tmp"; "D"; "B"; "x.txt"]) = Ok None /\
  remove_node [] (fst (build_in world_unlistable_D (MkTree dir_D None)))
    (absolute ["tmp"; "D"; "B"; "x.txt"]) = Raise ValueError.
Proof.
  split; [reflexivity |]. split; [reflexivity |]. split; [reflexivity |].
  destruct (proj1 (build_leaves_a_frozen_store [] world_unlistable_D (MkTree dir_D None)
                     eq_refl eq_refl) (absolute ["tmp"; "D"; "B"; "x.txt"]))
    as (Hsearch & Hremove & _).
  split; [exact Hsearch | exact Hremove].
Defined.
